(** * intset: a bit-vector set of small non-negative integers

    A shallow embedding of [intset.go] and the verification of its
    documented behaviour.  The development has three layers:

    - machine integers: Go's [int] and [uint] as [Z] with the wrap-around
      written out, for both word sizes the package supports;
    - the value model: an [IntSet] is the sequence of its words, every
      method is a function on that sequence (element-addressed methods can
      panic on an index out of range, hence return an [option]);
    - the store model: slices as headers into a store of backing arrays,
      used where sharing of storage is the question ([Copy]). *)

From Stdlib Require Import ZArith Lia Bool.
From stdpp Require Import base numbers option list sorting strings pretty gmap.
From Equations Require Import Equations.

Local Open Scope Z_scope.

(** ** Machine integers *)

(** The package is compiled for a 32-bit or a 64-bit platform; [uint] and
    [int] have that many bits. *)
Inductive platform : Set := P32 | P64.
Existing Class platform.

Definition uint_bits {pf : platform} : Z :=
  match pf with P32 => 32 | P64 => 64 end.

(** Conversion of a mathematical integer to [uint] and to [int]. *)
Definition to_uint {pf : platform} (z : Z) : Z := z mod 2 ^ uint_bits.

Definition to_int {pf : platform} (z : Z) : Z :=
  (z + 2 ^ (uint_bits - 1)) mod 2 ^ uint_bits - 2 ^ (uint_bits - 1).

(** [^x] on [uint]. *)
Definition uint_not {pf : platform} (a : Z) : Z := to_uint (Z.lnot a).

(** [a << k] on [uint], for a non-negative shift count: bits shifted past
    the top are lost. *)
Definition uint_shl {pf : platform} (a k : Z) : Z := to_uint (Z.shiftl a k).

(** [a >> k] on [uint]. *)
Definition uint_shr {pf : platform} (a k : Z) : Z := Z.shiftr a k.

(** [a &^ b] on [uint]. *)
Definition uint_andnot {pf : platform} (a b : Z) : Z := Z.land a (uint_not b).

(** [const N = 32 << (^uint(0) >> 63)]. *)
Definition N {pf : platform} : Z := Z.shiftl 32 (uint_shr (uint_not 0) 63).

#[global] Arguments uint_bits : simpl never.
#[global] Arguments to_uint : simpl never.
#[global] Arguments to_int : simpl never.
#[global] Arguments uint_not : simpl never.
#[global] Arguments uint_shl : simpl never.
#[global] Arguments uint_shr : simpl never.
#[global] Arguments uint_andnot : simpl never.
#[global] Arguments N : simpl never.

(** ** The value model *)

(** [type IntSet struct { words []uint }]. *)
Record IntSet : Set := { words : list Z }.

(** The zero value of the struct: [words] is the nil slice. *)
Definition zero_IntSet : IntSet := {| words := [] |}.

(** [len(s.words)], an [int]. *)
Definition len (ws : list Z) : Z := Z.of_nat (length ws).

(** [ws[i]] for an [int] index: a run-time panic ([None]) out of range. *)
Definition index (ws : list Z) (i : Z) : option Z :=
  if decide (0 <= i < len ws) then ws !! Z.to_nat i else None.

(** [ws[i] = v] for an [int] index, with the same bounds check. *)
Definition store (ws : list Z) (i : Z) (v : Z) : option (list Z) :=
  if decide (0 <= i < len ws) then Some (<[Z.to_nat i := v]> ws) else None.

Section Model.
Context {pf : platform}.

(** [word, bit := x/N, uint(x%N)]: Go's [/] and [%] truncate toward zero. *)
Definition word_of (x : Z) : Z := x ÷ N.
Definition bit_of (x : Z) : Z := to_uint (x `rem` N).

(** [func (s *IntSet) Has(x int) bool] *)
Definition Has (s : IntSet) (x : Z) : option bool :=
  let word := word_of x in
  let bit := bit_of x in
  if decide (word < len (words s)) then
    w ← index (words s) word;
    Some (negb (Z.land w (uint_shl 1 bit) =? 0))
  else Some false.

(** The loop of [Add]:
    [for word >= len(s.words) { s.words = append(s.words, 0) }]. *)
Equations? Add_grow (word : Z) (ws : list Z) : list Z
  by wf (Z.to_nat (word + 1 - len ws)) lt :=
  Add_grow word ws with decide (word >= len ws) := {
    | left _ => Add_grow word (ws ++ [0]);
    | right _ => ws }.
Proof. unfold len in *. rewrite length_app. simpl. lia. Qed.

(** [func (s *IntSet) Add(x int)] *)
Definition Add (s : IntSet) (x : Z) : option IntSet :=
  let word := word_of x in
  let bit := bit_of x in
  let ws := Add_grow word (words s) in
  w ← index ws word;
  ws' ← store ws word (Z.lor w (uint_shl 1 bit));
  Some {| words := ws' |}.

(** [func (s *IntSet) AddAll(vals ...int)] *)
Fixpoint AddAll (s : IntSet) (vals : list Z) : option IntSet :=
  match vals with
  | [] => Some s
  | x :: vals' => s' ← Add s x; AddAll s' vals'
  end.

(** [func (s *IntSet) Remove(x int)] *)
Definition Remove (s : IntSet) (x : Z) : option IntSet :=
  let word := word_of x in
  let bit := bit_of x in
  if decide (word >= len (words s)) then Some s
  else
    w ← index (words s) word;
    ws' ← store (words s) word (uint_andnot w (uint_shl 1 bit));
    Some {| words := ws' |}.

(** [func (s *IntSet) Clear()] *)
Definition Clear (s : IntSet) : IntSet := {| words := [] |}.

(** [func (s *IntSet) UnionWith(t *IntSet)]: the loop
    [for i, tword := range t.words], [i] counting the words consumed. *)
Fixpoint UnionWith_loop (i : nat) (twords : list Z) (ws : list Z) : list Z :=
  match twords with
  | [] => ws
  | tword :: twords' =>
      UnionWith_loop (S i) twords'
        (if decide (i < length ws)%nat
         then <[i := Z.lor (ws !!! i) tword]> ws
         else ws ++ [tword])
  end.

Definition UnionWith (s t : IntSet) : IntSet :=
  {| words := UnionWith_loop 0 (words t) (words s) |}.

(** [func (s *IntSet) IntersectWith(t *IntSet)]: the loop
    [for i := range t.words] runs over the indices of [t.words] and is left
    by [break]; both indexings are in range under its guard. *)
Fixpoint IntersectWith_loop (idx : list nat) (twords ws : list Z) : list Z :=
  match idx with
  | [] => ws
  | i :: idx' =>
      if decide (length ws <= i)%nat then ws
      else IntersectWith_loop idx' twords
             (<[i := Z.land (ws !!! i) (twords !!! i)]> ws)
  end.

Definition IntersectWith (s t : IntSet) : IntSet :=
  {| words :=
       IntersectWith_loop (seq 0 (length (words t))) (words t) (words s) |}.

(** [func (s *IntSet) DifferenceWith(t *IntSet)] *)
Fixpoint DifferenceWith_loop (idx : list nat) (twords ws : list Z) : list Z :=
  match idx with
  | [] => ws
  | i :: idx' =>
      if decide (length ws <= i)%nat then ws
      else DifferenceWith_loop idx' twords
             (<[i := uint_andnot (ws !!! i) (twords !!! i)]> ws)
  end.

Definition DifferenceWith (s t : IntSet) : IntSet :=
  {| words :=
       DifferenceWith_loop (seq 0 (length (words t))) (words t) (words s) |}.

(** [func (s *IntSet) SymmetricDifference(t *IntSet)] *)
Fixpoint SymmetricDifference_loop (i : nat) (twords : list Z) (ws : list Z)
  : list Z :=
  match twords with
  | [] => ws
  | tword :: twords' =>
      SymmetricDifference_loop (S i) twords'
        (if decide (i < length ws)%nat
         then <[i := Z.lxor (ws !!! i) tword]> ws
         else ws ++ [tword])
  end.

Definition SymmetricDifference (s t : IntSet) : IntSet :=
  {| words := SymmetricDifference_loop 0 (words t) (words s) |}.

(** The test [word&(1<<j) != 0] of the three scanning loops. *)
Definition bit_set (word j : Z) : bool :=
  negb (Z.land word (uint_shl 1 j) =? 0).

(** The element [i*N+j], computed on [int]. *)
Definition elem_at (i j : Z) : Z := to_int (to_int (i * N) + j).

(** [func (s IntSet) String() string].  The buffer is the string written
    so far; [buf.Len()] is its length in bytes. *)
Definition String_bit (i word : Z) (buf : string) (j : Z) : string :=
  if bit_set word j then
    let buf := if decide (String.length "{" < String.length buf)%nat
               then buf +:+ " " else buf in
    buf +:+ pretty (elem_at i j)
  else buf.

Fixpoint String_loop (i : Z) (ws : list Z) (buf : string) : string :=
  match ws with
  | [] => buf
  | word :: ws' =>
      String_loop (i + 1) ws'
        (if decide (word = 0) then buf
         else foldl (String_bit i word) buf (seqZ 0 N))
  end.

Definition String (s : IntSet) : string :=
  String_loop 0 (words s) "{" +:+ "}".

(** [func (s *IntSet) Len() int]; the counter [n] is an [int]. *)
Definition Len_bit (word : Z) (n : Z) (j : Z) : Z :=
  if bit_set word j then to_int (n + 1) else n.

Fixpoint Len_loop (ws : list Z) (n : Z) : Z :=
  match ws with
  | [] => n
  | word :: ws' =>
      Len_loop ws'
        (if decide (word = 0) then n else foldl (Len_bit word) n (seqZ 0 N))
  end.

Definition Len (s : IntSet) : Z := Len_loop (words s) 0.

(** [make([]uint, n)] and [copy(dst, src)], which copies
    [min(len(dst), len(src))] elements. *)
Definition make (n : nat) : list Z := replicate n 0.

Definition copy (dst src : list Z) : list Z :=
  let n := (length dst `min` length src)%nat in
  take n src ++ drop n dst.

(** [func (s *IntSet) Copy() *IntSet] *)
Definition Copy (s : IntSet) : IntSet :=
  let t := zero_IntSet in
  let twords := make (length (words s)) in
  {| words := copy twords (words s) |}.

(** [func (s *IntSet) Elems() []int]; [res] starts as the nil slice. *)
Definition Elems_bit (i word : Z) (res : list Z) (j : Z) : list Z :=
  if bit_set word j then res ++ [elem_at i j] else res.

Fixpoint Elems_loop (i : Z) (ws : list Z) (res : list Z) : list Z :=
  match ws with
  | [] => res
  | word :: ws' =>
      Elems_loop (i + 1) ws' (foldl (Elems_bit i word) res (seqZ 0 N))
  end.

Definition Elems (s : IntSet) : list Z := Elems_loop 0 (words s) [].

End Model.

(** ** The store model *)

(** Where the question is which storage two sets share, a slice is what it
    is in Go: a header (backing array, length, capacity) into a store of
    arrays, and a method receives a pointer to the struct that holds the
    header.  Only the methods whose sharing is in question are modelled
    here; each is shown further down to act on the words as its value-model
    counterpart does. *)
Module Store.

Definition loc : Set := positive.

(** A slice header.  The nil slice has no backing array. *)
Record slice : Set := { base : option loc; slen : nat; scap : nat }.

Definition nil_slice : slice := {| base := None; slen := 0; scap := 0 |}.

(** The memory: backing arrays of [uint], and [IntSet] structs, a struct
    being the header of its [words]. *)
Record heap : Type := { arrays : gmap loc (list Z); structs : gmap loc slice }.

Definition set_arrays (h : heap) (arrs : gmap loc (list Z)) : heap :=
  {| arrays := arrs; structs := structs h |}.

Definition set_struct (h : heap) (p : loc) (sl : slice) : heap :=
  {| arrays := arrays h; structs := <[p := sl]> (structs h) |}.

(** The backing array of a slice; the nil slice has an empty one. *)
Definition array_of (arrs : gmap loc (list Z)) (sl : slice) : list Z :=
  match base sl with
  | Some b => default [] (arrs !! b)
  | None => []
  end.

(** [sl[i]] and [sl[i] = v] for an [int] index, with the bounds check. *)
Definition index (arrs : gmap loc (list Z)) (sl : slice) (i : Z) : option Z :=
  if decide (0 <= i < Z.of_nat (slen sl)) then array_of arrs sl !! Z.to_nat i
  else None.

Definition store (arrs : gmap loc (list Z)) (sl : slice) (i : Z) (v : Z)
  : option (gmap loc (list Z)) :=
  if decide (0 <= i < Z.of_nat (slen sl)) then
    b ← base sl;
    Some (<[b := <[Z.to_nat i := v]> (array_of arrs sl)]> arrs)
  else None.

Section Allocation.
(** How much capacity [append] asks for when it has to reallocate is the
    runtime's choice; it is at least what the new length needs. *)
Variable growcap : nat → nat.

(** [make([]uint, n)]: a fresh zeroed array. *)
Definition make (arrs : gmap loc (list Z)) (n : nat)
  : slice * gmap loc (list Z) :=
  let b := fresh (dom arrs) in
  ({| base := Some b; slen := n; scap := n |}, <[b := replicate n 0]> arrs).

(** [append(sl, v)]: in place when the capacity allows, else into a fresh
    array that receives the old elements. *)
Definition append (arrs : gmap loc (list Z)) (sl : slice) (v : Z)
  : slice * gmap loc (list Z) :=
  match base sl with
  | Some b =>
      if decide (slen sl < scap sl)%nat then
        ({| base := Some b; slen := S (slen sl); scap := scap sl |},
         <[b := <[slen sl := v]> (array_of arrs sl)]> arrs)
      else
        let c := (S (slen sl) `max` growcap (scap sl))%nat in
        let b' := fresh (dom arrs) in
        ({| base := Some b'; slen := S (slen sl); scap := c |},
         <[b' := take (slen sl) (array_of arrs sl) ++ [v]
                 ++ replicate (c - S (slen sl)) 0]> arrs)
  | None =>
      let c := (S (slen sl) `max` growcap (scap sl))%nat in
      let b' := fresh (dom arrs) in
      ({| base := Some b'; slen := S (slen sl); scap := c |},
       <[b' := take (slen sl) (array_of arrs sl) ++ [v]
               ++ replicate (c - S (slen sl)) 0]> arrs)
  end.

(** [copy(dst, src)]: the first [min(len(dst), len(src))] elements. *)
Definition copy (arrs : gmap loc (list Z)) (dst src : slice)
  : gmap loc (list Z) :=
  let n := (slen dst `min` slen src)%nat in
  match base dst with
  | Some b =>
      <[b := take n (array_of arrs src) ++ drop n (array_of arrs dst)]> arrs
  | None => arrs
  end.

Context {pf : platform}.

(** [func (s *IntSet) Has(x int) bool] *)
Definition Has (h : heap) (s : loc) (x : Z) : option bool :=
  sl ← structs h !! s;
  let word := word_of x in
  let bit := bit_of x in
  if decide (word < Z.of_nat (slen sl)) then
    w ← index (arrays h) sl word;
    Some (negb (Z.land w (uint_shl 1 bit) =? 0))
  else Some false.

(** The loop of [Add], on the header of [s.words] and the arrays. *)
Equations? Add_grow (word : Z) (st : slice * gmap loc (list Z))
  : slice * gmap loc (list Z)
  by wf (Z.to_nat (word + 1 - Z.of_nat (slen st.1))) lt :=
  Add_grow word st with decide (word >= Z.of_nat (slen st.1)) := {
    | left _ => Add_grow word (append st.2 st.1 0);
    | right _ => st }.
Proof.
  match goal with
  | |- context [slen (append ?arrs ?sl 0).1] =>
      assert (slen (append arrs sl 0).1 = S (slen sl)) as ->; [| lia];
      unfold append; destruct (base sl); [| done];
      by destruct (decide (slen sl < scap sl)%nat)
  end.
Qed.

(** [func (s *IntSet) Add(x int)] *)
Definition Add (h : heap) (s : loc) (x : Z) : option heap :=
  sl ← structs h !! s;
  let word := word_of x in
  let bit := bit_of x in
  let '(sl, arrs) := Add_grow word (sl, arrays h) in
  let h := set_struct (set_arrays h arrs) s sl in
  w ← index arrs sl word;
  arrs ← store arrs sl word (Z.lor w (uint_shl 1 bit));
  Some (set_arrays h arrs).

(** [func (s *IntSet) Remove(x int)] *)
Definition Remove (h : heap) (s : loc) (x : Z) : option heap :=
  sl ← structs h !! s;
  let word := word_of x in
  let bit := bit_of x in
  if decide (word >= Z.of_nat (slen sl)) then Some h
  else
    w ← index (arrays h) sl word;
    arrs ← store (arrays h) sl word (uint_andnot w (uint_shl 1 bit));
    Some (set_arrays h arrs).

(** [func (s *IntSet) Copy() *IntSet]: [t := &IntSet{}] is a fresh struct
    with the nil slice. *)
Definition Copy (h : heap) (s : loc) : option (loc * heap) :=
  sl ← structs h !! s;
  let t := fresh (dom (structs h)) in
  let h := set_struct h t nil_slice in
  let '(twords, arrs) := make (arrays h) (slen sl) in
  let h := set_struct (set_arrays h arrs) t twords in
  Some (t, set_arrays h (copy (arrays h) twords sl)).

End Allocation.

(** The words of the set at [s], read through its header. *)
Definition contents (arrs : gmap loc (list Z)) (sl : slice) : list Z :=
  take (slen sl) (array_of arrs sl).

Definition view (h : heap) (s : loc) : option IntSet :=
  sl ← structs h !! s; Some {| words := contents (arrays h) sl |}.

(** A header is well formed when its array is there and has its capacity. *)
Definition wf_slice (arrs : gmap loc (list Z)) (sl : slice) : Prop :=
  (slen sl <= scap sl)%nat ∧
  match base sl with
  | Some b => ∃ a, arrs !! b = Some a ∧ length a = scap sl
  | None => scap sl = 0%nat
  end.

Definition wf_set (h : heap) (s : loc) : Prop :=
  ∃ sl, structs h !! s = Some sl ∧ wf_slice (arrays h) sl.

(** Two sets share no backing storage. *)
Definition disjoint (h : heap) (s t : loc) : Prop :=
  s ≠ t ∧
  ∀ sl tl b, structs h !! s = Some sl → structs h !! t = Some tl →
             base sl = Some b → base tl ≠ Some b.

End Store.

(** ** Notions used in the statements *)

(** The word at an index, where a word that is not there reads as zero. *)
Definition word_at (ws : list Z) (k : nat) : Z := default 0 (ws !! k).

(** Two word sequences that read the same at every index. *)
Definition same_words (ws1 ws2 : list Z) : Prop :=
  ∀ k : nat, word_at ws1 k = word_at ws2 k.

Section Notions.
Context {pf : platform}.

(** The bit of [x] in a word sequence. *)
Definition mem (ws : list Z) (x : Z) : bool :=
  Z.testbit (word_at ws (Z.to_nat (word_of x))) (bit_of x).

(** The bit indices of a word that the inner loop finds set. *)
Definition set_bits (word : Z) : list Z :=
  filter (λ j, bit_set word j = true) (seqZ 0 N).

(** The members written so far, separated by single spaces. *)
Definition join_elems (es : list Z) : string :=
  String.concat " " (pretty <$> es).

(** What [String] does with one member: a space unless it is the first,
    then the number. *)
Definition write_elem (buf : string) (e : Z) : string :=
  (if decide (String.length "{" < String.length buf)%nat
   then buf +:+ " " else buf) +:+ pretty e.

(** The members of [s], in ascending order: the set as the text describes
    it, through [Has]. *)
Definition members (s : IntSet) : list Z :=
  filter (λ x, Has s x = Some true) (seqZ 0 (len (words s) * N)).

(** The canonical text for a set: braces around the members in ascending
    order, as decimal numbers separated by single spaces. *)
Definition String_spec (s : IntSet) : string :=
  "{" +:+ String.concat " " (pretty <$> members s) +:+ "}".

(** Every element the words can hold is an [int]: what holds of every set
    built through the methods, whose words only grow to reach an [int]
    passed to [Add]. *)
Definition fits_int (s : IntSet) : Prop :=
  len (words s) * N <= 2 ^ (uint_bits - 1).

(** The values of [int]. *)
Definition is_int (x : Z) : Prop :=
  - 2 ^ (uint_bits - 1) <= x < 2 ^ (uint_bits - 1).

(** The sets a program can build: from the zero value, through the methods,
    with [int] arguments. *)
Inductive reachable : IntSet → Prop :=
  | reachable_zero : reachable zero_IntSet
  | reachable_Add s x s' :
      reachable s → is_int x → Add s x = Some s' → reachable s'
  | reachable_Remove s x s' :
      reachable s → is_int x → Remove s x = Some s' → reachable s'
  | reachable_Clear s : reachable s → reachable (Clear s)
  | reachable_Copy s : reachable s → reachable (Copy s)
  | reachable_UnionWith s t :
      reachable s → reachable t → reachable (UnionWith s t)
  | reachable_IntersectWith s t :
      reachable s → reachable t → reachable (IntersectWith s t)
  | reachable_DifferenceWith s t :
      reachable s → reachable t → reachable (DifferenceWith s t)
  | reachable_SymmetricDifference s t :
      reachable s → reachable t → reachable (SymmetricDifference s t).

End Notions.

(** Another slice [tl] that is well formed and does not have the array
    of [sl]. *)
Definition apart (arrs : gmap Store.loc (list Z)) (sl tl : Store.slice)
  : Prop :=
  Store.wf_slice arrs tl ∧
  ∀ b, Store.base sl = Some b → Store.base tl ≠ Some b.

(** ** Concrete sets *)

(** The sets {1, 9, 144} and {9, 42} on a 64-bit platform. *)
Definition set_A : IntSet := {| words := [514; 0; 65536] |}.
Definition set_B : IntSet := {| words := [4398046511616] |}.

(** The set {70} in the store: a struct at 1 whose slice is the whole of
    the array at 1; and a runtime that doubles capacities. *)
Definition heap_70 : Store.heap :=
  {| Store.arrays := {[ 1%positive := [0; 64] ]};
     Store.structs :=
       {[ 1%positive :=
            {| Store.base := Some 1%positive;
               Store.slen := 2; Store.scap := 2 |} ]} |}.

Definition doubling (c : nat) : nat := (2 * c)%nat.

(** ** Machine-integer facts *)

Section Theory.
Context {pf : platform}.

Lemma N_uint_bits : N = uint_bits.
Proof. by destruct pf. Qed.

Lemma N_cases : N = 32 ∨ N = 64.
Proof. destruct pf; [by left | by right]. Qed.

Lemma N_pos : 0 < N.
Proof. destruct N_cases as [-> | ->]; lia. Qed.

Lemma land_pow2 (w j : Z) :
  0 <= j → Z.land w (2 ^ j) = if Z.testbit w j then 2 ^ j else 0.
Proof.
  intros Hj. apply Z.bits_inj'. intros k Hk.
  rewrite Z.land_spec, Z.pow2_bits_eqb by done.
  destruct (Z.eqb_spec j k) as [-> | Hne].
  - destruct (Z.testbit w k) eqn:E; simpl.
    + by rewrite Z.pow2_bits_true.
    + by rewrite Z.bits_0.
  - rewrite andb_false_r. destruct (Z.testbit w j).
    + by rewrite Z.pow2_bits_false.
    + by rewrite Z.bits_0.
Qed.

Lemma uint_shl_1 (j : Z) : 0 <= j < N → uint_shl 1 j = 2 ^ j.
Proof.
  intros Hj. unfold uint_shl, to_uint.
  rewrite Z.shiftl_1_l, <- N_uint_bits.
  apply Z.mod_small. split; [apply Z.pow_nonneg; lia |].
  apply Z.pow_lt_mono_r; lia.
Qed.

Lemma bit_set_testbit (w j : Z) : 0 <= j < N → bit_set w j = Z.testbit w j.
Proof.
  intros Hj. unfold bit_set. rewrite uint_shl_1, land_pow2 by lia.
  assert (0 < 2 ^ j) by (apply Z.pow_pos_nonneg; lia).
  destruct (Z.testbit w j); simpl.
  - destruct (Z.eqb_spec (2 ^ j) 0); [lia | done].
  - done.
Qed.

Lemma word_of_nonneg (x : Z) : 0 <= x → word_of x = x `div` N.
Proof. intros. unfold word_of. apply Z.quot_div_nonneg; [done | apply N_pos]. Qed.

Lemma bit_of_nonneg (x : Z) : 0 <= x → bit_of x = x `mod` N.
Proof.
  intros. unfold bit_of, to_uint. pose proof N_pos.
  rewrite Z.rem_mod_nonneg by lia.
  pose proof (Z.mod_pos_bound x N N_pos).
  apply Z.mod_small. split; [lia |].
  rewrite <- N_uint_bits.
  pose proof (Z.pow_gt_lin_r 2 N). lia.
Qed.

Lemma bit_of_range (x : Z) : 0 <= x → 0 <= bit_of x < N.
Proof.
  intros. rewrite bit_of_nonneg by done. apply Z.mod_pos_bound, N_pos.
Qed.

Lemma word_of_range (x : Z) : 0 <= x → 0 <= word_of x.
Proof.
  intros. rewrite word_of_nonneg by done. apply Z.div_pos; [done | apply N_pos].
Qed.

(** An element is determined by its word index and its bit index. *)
Lemma word_bit_inj (x y : Z) :
  0 <= x → 0 <= y → word_of x = word_of y → bit_of x = bit_of y → x = y.
Proof.
  intros Hx Hy. rewrite !word_of_nonneg, !bit_of_nonneg by done.
  intros Hw Hb. pose proof N_pos.
  rewrite (Z.div_mod x N), (Z.div_mod y N) by lia. congruence.
Qed.

(** ** Indexing *)

Lemma index_Some (ws : list Z) (i : Z) :
  0 <= i < len ws → index ws i = Some (ws !!! Z.to_nat i).
Proof.
  intros Hi. unfold index. rewrite decide_True by done.
  apply list_lookup_lookup_total_lt. unfold len in Hi. lia.
Qed.

Lemma store_Some (ws : list Z) (i v : Z) :
  0 <= i < len ws → store ws i v = Some (<[Z.to_nat i := v]> ws).
Proof. intros Hi. unfold store. by rewrite decide_True. Qed.

Lemma word_at_lt (ws : list Z) (k : nat) :
  (k < length ws)%nat → word_at ws k = ws !!! k.
Proof.
  intros Hk. unfold word_at.
  by rewrite (list_lookup_lookup_total_lt ws k Hk).
Qed.

Lemma word_at_ge (ws : list Z) (k : nat) :
  (length ws <= k)%nat → word_at ws k = 0.
Proof. intros Hk. unfold word_at. by rewrite lookup_ge_None_2. Qed.

Lemma word_at_insert (ws : list Z) (i k : nat) (v : Z) :
  (i < length ws)%nat →
  word_at (<[i := v]> ws) k = if decide (i = k) then v else word_at ws k.
Proof.
  intros Hi. unfold word_at. destruct (decide (i = k)) as [-> | Hne].
  - by rewrite list_lookup_insert_eq.
  - by rewrite list_lookup_insert_ne.
Qed.

Lemma word_at_app_zeros (ws : list Z) (n k : nat) :
  word_at (ws ++ replicate n 0) k = word_at ws k.
Proof.
  unfold word_at. destruct (decide (k < length ws)%nat) as [Hk | Hk].
  - by rewrite lookup_app_l.
  - rewrite lookup_app_r, (lookup_ge_None_2 ws) by lia. simpl.
    destruct (replicate n 0 !! (k - length ws)%nat) as [z |] eqn:E; [| done].
    apply lookup_replicate in E as [-> _]. done.
Qed.

(** ** Membership, read off the words *)

Lemma Has_mem (s : IntSet) (x : Z) : 0 <= x → Has s x = Some (mem (words s) x).
Proof.
  intros Hx. unfold Has, mem.
  pose proof (word_of_range x Hx). pose proof (bit_of_range x Hx).
  destruct (decide (word_of x < len (words s))) as [Hlt | Hge].
  - rewrite index_Some by lia. simpl.
    rewrite word_at_lt by (unfold len in Hlt; lia).
    f_equal. by apply bit_set_testbit.
  - rewrite word_at_ge by (unfold len in Hge; lia).
    by rewrite Z.bits_0.
Qed.

Lemma same_words_mem (ws1 ws2 : list Z) (x : Z) :
  same_words ws1 ws2 → mem ws1 x = mem ws2 x.
Proof. intros H. unfold mem. by rewrite H. Qed.

(** ** Point operations: [Add] and [Remove] *)

Lemma Add_grow_spec (word : Z) (ws : list Z) :
  Add_grow word ws = ws ++ replicate (Z.to_nat (word + 1 - len ws)) 0.
Proof.
  funelim (Add_grow word ws); unfold len in *.
  - rewrite H. rewrite length_app. simpl.
    replace (Z.to_nat (word + 1 - Z.of_nat (length ws)))
      with (S (Z.to_nat (word + 1 - Z.of_nat (length ws + 1)))) by lia.
    simpl. by rewrite <- app_assoc.
  - replace (Z.to_nat (word + 1 - Z.of_nat (length ws))) with 0%nat by lia.
    simpl. by rewrite app_nil_r.
Qed.

Lemma Add_grow_length (word : Z) (ws : list Z) :
  len (Add_grow word ws) = Z.max (len ws) (word + 1).
Proof.
  rewrite Add_grow_spec. unfold len.
  rewrite length_app, length_replicate. lia.
Qed.

Lemma testbit_set (w b c : Z) :
  0 <= b → Z.testbit (Z.lor w (2 ^ b)) c = Z.testbit w c || (b =? c).
Proof. intros. by rewrite Z.lor_spec, Z.pow2_bits_eqb. Qed.

Lemma testbit_clear (w b c : Z) :
  0 <= b < N → 0 <= c < N →
  Z.testbit (uint_andnot w (uint_shl 1 b)) c = Z.testbit w c && negb (b =? c).
Proof.
  intros Hb Hc. unfold uint_andnot, uint_not, to_uint.
  rewrite uint_shl_1 by done.
  rewrite Z.land_spec, Z.mod_pow2_bits_low by (rewrite <- N_uint_bits; lia).
  rewrite Z.lnot_spec, Z.pow2_bits_eqb by lia. done.
Qed.

(** [Add] returns, with the words grown to reach the word of [x] and the bit
    of [x] set in it. *)
Lemma Add_words (s : IntSet) (x : Z) :
  0 <= x →
  let k := Z.to_nat (word_of x) in
  let ws := words s ++ replicate (k + 1 - length (words s)) 0 in
  Add s x = Some {| words := <[k := Z.lor (ws !!! k) (2 ^ bit_of x)]> ws |}.
Proof.
  intros Hx k ws. unfold Add.
  pose proof (word_of_range x Hx) as Hw. pose proof (bit_of_range x Hx) as Hb.
  pose proof (Add_grow_length (word_of x) (words s)) as Hlen.
  assert (Add_grow (word_of x) (words s) = ws) as Hws.
  { rewrite Add_grow_spec. unfold ws, len, k. do 2 f_equal. lia. }
  rewrite Hws in *. unfold len at 2 in Hlen.
  rewrite index_Some by lia. simpl.
  rewrite store_Some by lia. simpl.
  by rewrite uint_shl_1.
Qed.

(** Membership after [Add]: [x] is in, every other element is as before. *)
Lemma Add_mem (s : IntSet) (x : Z) :
  0 <= x →
  ∃ s', Add s x = Some s' ∧
        ∀ y, 0 <= y →
             mem (words s') y = if decide (x = y) then true else mem (words s) y.
Proof.
  intros Hx. eexists. split; [by apply Add_words |].
  intros y Hy. simpl.
  set (k := Z.to_nat (word_of x)).
  set (ws := words s ++ replicate (k + 1 - length (words s)) 0).
  pose proof (word_of_range x Hx) as Hw. pose proof (bit_of_range x Hx) as Hb.
  pose proof (word_of_range y Hy) as Hw'. pose proof (bit_of_range y Hy) as Hb'.
  assert (k < length ws)%nat as Hk.
  { unfold ws. rewrite length_app, length_replicate. lia. }
  unfold mem. rewrite word_at_insert by done. fold k.
  rewrite <- word_at_lt by done. unfold ws at 1 2. rewrite !word_at_app_zeros.
  destruct (decide (k = Z.to_nat (word_of y))) as [Ek | Nk].
  - rewrite testbit_set by lia. rewrite <- Ek.
    destruct (decide (x = y)) as [-> | Nxy].
    + by rewrite Z.eqb_refl, orb_true_r.
    + destruct (Z.eqb_spec (bit_of x) (bit_of y)) as [Eb | Nb].
      * exfalso. apply Nxy, word_bit_inj; [done | done | | done].
        unfold k in Ek. lia.
      * by rewrite orb_false_r.
  - rewrite decide_False; [done |]. intros ->. by apply Nk.
Qed.

(** [Remove] returns, with as many words as before. *)
Lemma Remove_words (s : IntSet) (x : Z) :
  0 <= x →
  let k := Z.to_nat (word_of x) in
  Remove s x =
    Some (if decide (length (words s) <= k)%nat then s
          else {| words := <[k := uint_andnot (words s !!! k)
                                   (uint_shl 1 (bit_of x))]> (words s) |}).
Proof.
  intros Hx k. unfold Remove.
  pose proof (word_of_range x Hx) as Hw. unfold len.
  destruct (decide (word_of x >= Z.of_nat (length (words s)))) as [Hge | Hlt].
  - rewrite decide_True by lia. done.
  - rewrite decide_False by lia.
    rewrite index_Some by (unfold len; lia). simpl.
    rewrite store_Some by (unfold len; lia). done.
Qed.

(** Membership after [Remove]: [x] is out, every other element is as
    before. *)
Lemma Remove_mem (s : IntSet) (x : Z) :
  0 <= x →
  ∃ s', Remove s x = Some s' ∧
        length (words s') = length (words s) ∧
        ∀ y, 0 <= y →
             mem (words s') y = if decide (x = y) then false else mem (words s) y.
Proof.
  intros Hx. eexists. split; [by apply Remove_words |].
  set (k := Z.to_nat (word_of x)).
  pose proof (word_of_range x Hx) as Hw. pose proof (bit_of_range x Hx) as Hb.
  destruct (decide (length (words s) <= k)%nat) as [Hge | Hlt].
  - split; [done |]. intros y Hy.
    destruct (decide (x = y)) as [<- | _]; [| done].
    unfold mem. fold k. rewrite word_at_ge by done. apply Z.bits_0.
  - simpl. split; [by rewrite length_insert |]. intros y Hy.
    pose proof (word_of_range y Hy) as Hw'.
    pose proof (bit_of_range y Hy) as Hb'.
    unfold mem. rewrite word_at_insert by lia.
    rewrite <- word_at_lt by lia.
    destruct (decide (k = Z.to_nat (word_of y))) as [Ek | Nk].
    + rewrite testbit_clear by done. rewrite <- Ek.
      destruct (decide (x = y)) as [-> | Nxy].
      * by rewrite Z.eqb_refl, andb_false_r.
      * destruct (Z.eqb_spec (bit_of x) (bit_of y)) as [Eb | Nb].
        -- exfalso. apply Nxy, word_bit_inj; [done | done | | done].
           unfold k in Ek. lia.
        -- by rewrite andb_true_r.
    + rewrite decide_False; [done |]. intros ->. by apply Nk.
Qed.

(** ** Word-parallel operations *)

(** The two loops that extend the receiver ([UnionWith] with [Z.lor],
    [SymmetricDifference] with [Z.lxor]) share their shape; [op] is the
    word operation, of which zero is a left and right unit. *)
Section Extending.
Variable op : Z → Z → Z.
Variable loop : nat → list Z → list Z → list Z.
Hypothesis op_0_l : ∀ w, op 0 w = w.
Hypothesis op_0_r : ∀ w, op w 0 = w.
Hypothesis loop_nil : ∀ i ws, loop i [] ws = ws.
Hypothesis loop_cons : ∀ i tword twords ws,
  loop i (tword :: twords) ws =
  loop (S i) twords
    (if decide (i < length ws)%nat
     then <[i := op (ws !!! i) tword]> ws else ws ++ [tword]).

Lemma extending_word_at (i : nat) (twords ws : list Z) (k : nat) :
  (i <= length ws)%nat →
  word_at (loop i twords ws) k =
  op (word_at ws k) (if decide (i <= k)%nat then word_at twords (k - i) else 0).
Proof.
  revert i ws. induction twords as [| tword twords IH]; intros i ws Hi.
  - rewrite loop_nil. unfold word_at at 3. rewrite lookup_nil. simpl.
    by destruct (decide (i <= k)%nat); rewrite op_0_r.
  - rewrite loop_cons. destruct (decide (i < length ws)%nat) as [Hlt | Hge].
    + rewrite IH by (rewrite length_insert; lia).
      rewrite word_at_insert by done. rewrite <- word_at_lt by done.
      destruct (decide (i = k)) as [-> | Hne].
      * rewrite decide_False, decide_True by lia.
        replace (k - k)%nat with 0%nat by lia. by rewrite op_0_r.
      * destruct (decide (S i <= k)%nat).
        -- rewrite decide_True by lia.
           replace (k - i)%nat with (S (k - S i)) by lia. done.
        -- rewrite decide_False by lia. done.
    + assert (length ws = i) as Hlen by lia.
      rewrite IH by (rewrite length_app; simpl; lia).
      unfold word_at at 1 3.
      destruct (decide (k < i)%nat) as [Hk | Hk].
      * rewrite lookup_app_l by lia.
        by rewrite !decide_False by lia.
      * rewrite lookup_app_r, (lookup_ge_None_2 ws) by lia.
        rewrite Hlen. simpl. rewrite (decide_True _ _ (proj1 (Nat.nlt_ge _ _) Hk)).
        destruct (decide (i = k)) as [-> | Hne].
        -- replace (k - k)%nat with 0%nat by lia. simpl.
           rewrite decide_False by lia. by rewrite op_0_r, op_0_l.
        -- rewrite decide_True by lia.
           replace (k - i)%nat with (S (k - S i)) by lia. simpl.
           done.
Qed.

Lemma extending_length (i : nat) (twords ws : list Z) :
  (i <= length ws)%nat →
  length (loop i twords ws) = (length ws `max` (i + length twords))%nat.
Proof.
  revert i ws. induction twords as [| tword twords IH]; intros i ws Hi.
  - rewrite loop_nil. simpl. lia.
  - rewrite loop_cons. destruct (decide (i < length ws)%nat).
    + rewrite IH by (rewrite length_insert; lia).
      rewrite length_insert. simpl. lia.
    + rewrite IH by (rewrite length_app; simpl; lia).
      rewrite length_app. simpl. lia.
Qed.

End Extending.

Lemma UnionWith_word_at (s t : IntSet) (k : nat) :
  word_at (words (UnionWith s t)) k =
  Z.lor (word_at (words s) k) (word_at (words t) k).
Proof.
  unfold UnionWith. simpl.
  rewrite (extending_word_at Z.lor UnionWith_loop)
    by (done || apply Z.lor_0_r || simpl; lia).
  rewrite decide_True by lia. by rewrite Nat.sub_0_r.
Qed.

Lemma UnionWith_length (s t : IntSet) :
  length (words (UnionWith s t)) =
  (length (words s) `max` length (words t))%nat.
Proof.
  unfold UnionWith. simpl.
  by rewrite (extending_length Z.lor UnionWith_loop) by (done || simpl; lia).
Qed.

Lemma SymmetricDifference_word_at (s t : IntSet) (k : nat) :
  word_at (words (SymmetricDifference s t)) k =
  Z.lxor (word_at (words s) k) (word_at (words t) k).
Proof.
  unfold SymmetricDifference. simpl.
  rewrite (extending_word_at Z.lxor SymmetricDifference_loop)
    by (done || apply Z.lxor_0_r || simpl; lia).
  rewrite decide_True by lia. by rewrite Nat.sub_0_r.
Qed.

Lemma SymmetricDifference_length (s t : IntSet) :
  length (words (SymmetricDifference s t)) =
  (length (words s) `max` length (words t))%nat.
Proof.
  unfold SymmetricDifference. simpl.
  by rewrite (extending_length Z.lxor SymmetricDifference_loop)
    by (done || simpl; lia).
Qed.

(** The two loops that stop at the end of the receiver ([IntersectWith]
    with [Z.land], [DifferenceWith] with and-not) share their shape too. *)
Section Truncating.
Variable op : Z → Z → Z.
Variable loop : list nat → list Z → list Z → list Z.
Hypothesis loop_nil : ∀ twords ws, loop [] twords ws = ws.
Hypothesis loop_cons : ∀ i idx twords ws,
  loop (i :: idx) twords ws =
  if decide (length ws <= i)%nat then ws
  else loop idx twords (<[i := op (ws !!! i) (twords !!! i)]> ws).

Lemma truncating_length (idx : list nat) (twords ws : list Z) :
  length (loop idx twords ws) = length ws.
Proof.
  revert ws. induction idx as [| i idx IH]; intros ws.
  - by rewrite loop_nil.
  - rewrite loop_cons. destruct (decide (length ws <= i)%nat); [done |].
    by rewrite IH, length_insert.
Qed.

Lemma truncating_word_at (i n : nat) (twords ws : list Z) (k : nat) :
  (i + n <= length twords)%nat →
  word_at (loop (seq i n) twords ws) k =
  if decide (i <= k < (i + n) `min` length ws)%nat
  then op (word_at ws k) (word_at twords k) else word_at ws k.
Proof.
  revert i ws. induction n as [| n IH]; intros i ws Hn.
  - simpl. rewrite loop_nil. rewrite decide_False by lia. done.
  - simpl. rewrite loop_cons.
    destruct (decide (length ws <= i)%nat) as [Hge | Hlt].
    + rewrite decide_False by lia. done.
    + rewrite IH by lia. rewrite length_insert.
      rewrite word_at_insert by lia.
      rewrite <- !word_at_lt by lia.
      destruct (decide (i = k)) as [-> | Hne].
      * rewrite decide_False, decide_True by lia. done.
      * destruct (decide (S i <= k < (S i + n) `min` length ws)%nat).
        -- rewrite decide_True by lia. done.
        -- rewrite decide_False by lia. done.
Qed.

End Truncating.

Lemma IntersectWith_word_at (s t : IntSet) (k : nat) :
  word_at (words (IntersectWith s t)) k =
  if decide (k < length (words t))%nat
  then Z.land (word_at (words s) k) (word_at (words t) k)
  else word_at (words s) k.
Proof.
  unfold IntersectWith. simpl.
  rewrite (truncating_word_at Z.land IntersectWith_loop) by (done || simpl; lia).
  simpl. destruct (decide (k < length (words t))%nat).
  - destruct (decide (k < length (words s))%nat).
    + by rewrite decide_True by lia.
    + rewrite decide_False by lia. rewrite (word_at_ge (words s)) by lia. done.
  - by rewrite decide_False by lia.
Qed.

Lemma IntersectWith_length (s t : IntSet) :
  length (words (IntersectWith s t)) = length (words s).
Proof. by apply (truncating_length Z.land IntersectWith_loop). Qed.

Lemma DifferenceWith_word_at (s t : IntSet) (k : nat) :
  word_at (words (DifferenceWith s t)) k =
  if decide (k < length (words t) `min` length (words s))%nat
  then uint_andnot (word_at (words s) k) (word_at (words t) k)
  else word_at (words s) k.
Proof.
  unfold DifferenceWith. simpl.
  rewrite (truncating_word_at uint_andnot DifferenceWith_loop)
    by (done || simpl; lia).
  simpl. destruct (decide (k < length (words t) `min` length (words s))%nat).
  - by rewrite decide_True by lia.
  - by rewrite decide_False by lia.
Qed.

Lemma DifferenceWith_length (s t : IntSet) :
  length (words (DifferenceWith s t)) = length (words s).
Proof. by apply (truncating_length uint_andnot DifferenceWith_loop). Qed.

Lemma copy_make (ws : list Z) : copy (make (length ws)) ws = ws.
Proof.
  unfold copy, make. rewrite length_replicate, Nat.min_id.
  rewrite firstn_all. rewrite drop_ge by (rewrite length_replicate; lia).
  apply app_nil_r.
Qed.

Lemma Copy_words (s : IntSet) : words (Copy s) = words s.
Proof. unfold Copy. simpl. apply copy_make. Qed.

(** ** Strings *)

Lemma append_cons (c : Ascii.ascii) (s1 s2 : string) :
  String.String c s1 +:+ s2 = String.String c (s1 +:+ s2).
Proof. done. Qed.

Lemma append_assoc (s1 s2 s3 : string) : (s1 +:+ s2) +:+ s3 = s1 +:+ (s2 +:+ s3).
Proof.
  induction s1 as [| c s1 IH]; [done |]. by rewrite !append_cons, IH.
Qed.

Lemma length_append (s1 s2 : string) :
  String.length (s1 +:+ s2) = (String.length s1 + String.length s2)%nat.
Proof.
  induction s1 as [| c s1 IH]; [done |]. rewrite append_cons. simpl.
  by rewrite IH.
Qed.

Lemma pretty_N_go_length (n : BinNums.N) (acc : string) :
  (String.length acc <= String.length (pretty_N_go n acc))%nat.
Proof.
  revert acc. induction (N.lt_wf_0 n) as [n _ IH]. intros acc.
  destruct (decide (n = 0)%N) as [-> | Hn].
  - by rewrite pretty_N_go_0.
  - rewrite pretty_N_go_step by lia.
    etrans; [| apply IH; apply N.div_lt; lia]. simpl. lia.
Qed.

(** [%d] never prints the empty string. *)
Lemma pretty_Z_length (z : Z) : (0 < String.length (pretty z))%nat.
Proof.
  unfold pretty, pretty_Z. destruct z as [| p | p]; simpl; [lia | | lia].
  unfold pretty, pretty_positive, pretty, pretty_N.
  rewrite decide_False by done.
  rewrite pretty_N_go_step by lia.
  eapply Nat.lt_le_trans; [| apply pretty_N_go_length]. simpl. lia.
Qed.

Lemma join_elems_snoc (es : list Z) (e : Z) :
  join_elems (es ++ [e]) =
  if decide (es = []) then pretty e else join_elems es +:+ " " +:+ pretty e.
Proof.
  induction es as [| e0 es IH]; [done |].
  rewrite decide_False by done. unfold join_elems in *.
  destruct es as [| e1 es]; [done |].
  rewrite decide_False in IH by done.
  change (String.concat " " (pretty <$> (e0 :: e1 :: es) ++ [e]))
    with (pretty e0 +:+ " " +:+
          String.concat " " (pretty <$> (e1 :: es) ++ [e])).
  rewrite IH.
  change (String.concat " " (pretty <$> e0 :: e1 :: es))
    with (pretty e0 +:+ " " +:+ String.concat " " (pretty <$> e1 :: es)).
  by rewrite !append_assoc.
Qed.

Lemma join_elems_length (es : list Z) :
  es ≠ [] → (0 < String.length (join_elems es))%nat.
Proof.
  destruct es as [| e0 es]; [done |]. intros _. unfold join_elems.
  pose proof (pretty_Z_length e0).
  destruct es as [| e1 es]; simpl; [done |].
  rewrite length_append. lia.
Qed.

(** ** The scanning loops: [Elems], [String] and [Len] *)

Lemma bit_set_0 (j : Z) : bit_set 0 j = false.
Proof. unfold bit_set. by rewrite Z.land_0_l. Qed.

Lemma set_bits_0 : set_bits 0 = [].
Proof.
  unfold set_bits. induction (seqZ 0 N) as [| j l IH]; [done |].
  rewrite filter_cons_False; [done |]. by rewrite bit_set_0.
Qed.

Lemma Elems_bit_foldl (i word : Z) (res l : list Z) :
  foldl (Elems_bit i word) res l =
  res ++ (elem_at i <$> filter (λ j, bit_set word j = true) l).
Proof.
  revert res. induction l as [| j l IH]; intros res; simpl.
  - by rewrite app_nil_r.
  - rewrite IH. unfold Elems_bit. rewrite filter_cons.
    destruct (bit_set word j) eqn:E.
    + rewrite decide_True by done. by rewrite <- app_assoc.
    + rewrite decide_False by done. done.
Qed.

Lemma Elems_loop_acc (i : Z) (ws res : list Z) :
  Elems_loop i ws res = res ++ Elems_loop i ws [].
Proof.
  revert i res. induction ws as [| word ws IH]; intros i res; cbn [Elems_loop].
  - by rewrite app_nil_r.
  - rewrite IH, (IH _ (foldl _ [] _)), !Elems_bit_foldl.
    by rewrite app_assoc.
Qed.

Lemma Elems_loop_app (i : Z) (ws1 ws2 res : list Z) :
  Elems_loop i (ws1 ++ ws2) res =
  Elems_loop (i + len ws1) ws2 (Elems_loop i ws1 res).
Proof.
  revert i res. induction ws1 as [| word ws1 IH]; intros i res;
    cbn [Elems_loop app].
  - unfold len. cbn [length]. by rewrite Z.add_0_r.
  - rewrite IH. f_equal. unfold len. cbn [length]. lia.
Qed.

Lemma Elems_loop_zeros (i : Z) (k : nat) (res : list Z) :
  Elems_loop i (replicate k 0) res = res.
Proof.
  revert i. induction k as [| k IH]; intros i;
    cbn [Elems_loop replicate]; [done |].
  rewrite Elems_bit_foldl. fold (set_bits 0). rewrite set_bits_0.
  cbn [fmap list_fmap]. by rewrite app_nil_r, IH.
Qed.

Lemma String_bit_foldl (i word : Z) (buf : string) (l : list Z) :
  foldl (String_bit i word) buf l =
  foldl write_elem buf (elem_at i <$> filter (λ j, bit_set word j = true) l).
Proof.
  revert buf. induction l as [| j l IH]; intros buf; simpl; [done |].
  rewrite IH. unfold String_bit. rewrite filter_cons.
  destruct (bit_set word j) eqn:E.
  - by rewrite (decide_True (P := true = true)) by done.
  - by rewrite (decide_False (P := false = true)) by done.
Qed.

Lemma String_loop_Elems (i : Z) (ws : list Z) (buf : string) :
  String_loop i ws buf = foldl write_elem buf (Elems_loop i ws []).
Proof.
  revert i buf. induction ws as [| word ws IH]; intros i buf;
    cbn [String_loop Elems_loop]; [done |].
  rewrite IH, (Elems_loop_acc _ _ (foldl _ _ _)), foldl_app. f_equal.
  rewrite Elems_bit_foldl. cbn [app].
  destruct (decide (word = 0)) as [-> | Hne].
  - fold (set_bits 0). by rewrite set_bits_0.
  - apply String_bit_foldl.
Qed.

Lemma write_elems (es0 es : list Z) :
  foldl write_elem ("{" +:+ join_elems es0) es = "{" +:+ join_elems (es0 ++ es).
Proof.
  revert es0. induction es as [| e es IH]; intros es0; simpl.
  - by rewrite app_nil_r.
  - replace (es0 ++ e :: es) with ((es0 ++ [e]) ++ es)
      by (by rewrite <- app_assoc).
    rewrite <- IH. f_equal.
    unfold write_elem. rewrite join_elems_snoc.
    destruct (decide (es0 = [])) as [-> | Hne]; [done |].
    pose proof (join_elems_length es0 Hne).
    rewrite decide_True by (rewrite length_append; simpl; lia).
    by rewrite !append_assoc.
Qed.

(** [String] prints the sequence that [Elems] returns. *)
Lemma String_Elems (s : IntSet) :
  String s = "{" +:+ join_elems (Elems s) +:+ "}".
Proof.
  unfold String, Elems. rewrite String_loop_Elems.
  rewrite (write_elems [] _). simpl. done.
Qed.

Lemma Len_bit_zero (n : Z) (l : list Z) : foldl (Len_bit 0) n l = n.
Proof.
  induction l as [| j l IH]; cbn [foldl]; [done |].
  unfold Len_bit at 2. by rewrite bit_set_0.
Qed.

Lemma Len_loop_app (ws1 ws2 : list Z) (n : Z) :
  Len_loop (ws1 ++ ws2) n = Len_loop ws2 (Len_loop ws1 n).
Proof.
  revert n. induction ws1 as [| word ws1 IH]; intros n;
    cbn [Len_loop app]; [done | apply IH].
Qed.

Lemma Len_loop_zeros (k : nat) (n : Z) : Len_loop (replicate k 0) n = n.
Proof.
  induction k as [| k IH]; cbn [Len_loop replicate]; [done |].
  by rewrite decide_True.
Qed.

(** ** The members of a set, in ascending order *)

Lemma to_int_small (z : Z) :
  - 2 ^ (uint_bits - 1) <= z < 2 ^ (uint_bits - 1) → to_int z = z.
Proof.
  intros Hz. unfold to_int.
  assert (2 ^ uint_bits = 2 * 2 ^ (uint_bits - 1)) as E.
  { rewrite <- Z.pow_succ_r by (destruct pf; done). f_equal. lia. }
  rewrite Z.mod_small by lia. lia.
Qed.

Lemma elem_at_small (i j : Z) :
  0 <= i → 0 <= j < N → (i + 1) * N <= 2 ^ (uint_bits - 1) →
  elem_at i j = i * N + j.
Proof.
  intros Hi Hj Hfit. unfold elem_at.
  assert (0 <= i * N) by (pose proof N_pos; nia).
  rewrite (to_int_small (i * N)) by lia.
  apply to_int_small. lia.
Qed.

Lemma word_of_elem (i j : Z) : 0 <= i → 0 <= j < N → word_of (i * N + j) = i.
Proof.
  intros Hi Hj. pose proof N_pos.
  rewrite word_of_nonneg by nia.
  rewrite Z.add_comm, Z.div_add by lia.
  by rewrite Z.div_small.
Qed.

Lemma bit_of_elem (i j : Z) : 0 <= i → 0 <= j < N → bit_of (i * N + j) = j.
Proof.
  intros Hi Hj. pose proof N_pos.
  rewrite bit_of_nonneg by nia.
  rewrite Z.add_comm, Z.mod_add by lia.
  by rewrite Z.mod_small.
Qed.

Lemma filter_ext_elem {A} (P Q : A → Prop)
    `{!∀ x, Decision (P x)} `{!∀ x, Decision (Q x)} (l : list A) :
  (∀ x, x ∈ l → P x ↔ Q x) → filter P l = filter Q l.
Proof.
  induction l as [| x l IH]; intros Hext; [done |].
  rewrite !filter_cons, IH by (intros; apply Hext; by right).
  pose proof (Hext x (list_elem_of_here _ _)) as Hx.
  destruct (decide (P x)), (decide (Q x)); tauto || done.
Qed.

Lemma filter_fmap {A B} (f : A → B) (P : B → Prop)
    `{!∀ y, Decision (P y)} (l : list A) :
  filter P (f <$> l) = f <$> filter (λ x, P (f x)) l.
Proof.
  induction l as [| x l IH]; [done |].
  rewrite fmap_cons, !filter_cons, IH. by destruct (decide (P (f x))).
Qed.

(** Membership of the elements of the last word, and of those before it. *)
Lemma Has_last_word (ws : list Z) (w j : Z) :
  0 <= j < N →
  Has {| words := ws ++ [w] |} (len ws * N + j) = Some (bit_set w j).
Proof.
  intros Hj. pose proof N_pos. unfold len.
  rewrite Has_mem by nia. unfold mem.
  rewrite word_of_elem, bit_of_elem by lia. simpl.
  unfold word_at. rewrite Nat2Z.id, lookup_app_r, Nat.sub_diag by lia.
  simpl. by rewrite bit_set_testbit.
Qed.

Lemma Has_before_last (ws : list Z) (w x : Z) :
  0 <= x < len ws * N →
  Has {| words := ws ++ [w] |} x = Has {| words := ws |} x.
Proof.
  intros Hx. pose proof N_pos. rewrite !Has_mem by lia. unfold mem. simpl.
  assert (word_of x < len ws) as Hw.
  { rewrite word_of_nonneg by lia. apply Z.div_lt_upper_bound; lia. }
  pose proof (word_of_range x (proj1 Hx)).
  unfold word_at. rewrite lookup_app_l by (unfold len in Hw; lia). done.
Qed.

Lemma Elems_snoc (ws : list Z) (w : Z) :
  Elems {| words := ws ++ [w] |} =
  Elems {| words := ws |} ++ (elem_at (len ws) <$> set_bits w).
Proof.
  unfold Elems. cbn [words]. rewrite Elems_loop_app. cbn [Elems_loop].
  by rewrite Elems_bit_foldl.
Qed.

Lemma members_snoc (ws : list Z) (w : Z) :
  members {| words := ws ++ [w] |} =
  members {| words := ws |} ++ (Z.add (len ws * N) <$> set_bits w).
Proof.
  unfold members. cbn [words]. pose proof N_pos.
  assert (len (ws ++ [w]) * N = len ws * N + N) as ->.
  { unfold len. rewrite length_app. cbn [length]. lia. }
  rewrite seqZ_app by (unfold len; nia). rewrite filter_app. f_equal.
  - apply filter_ext_elem. intros x Hx. rewrite elem_of_seqZ in Hx.
    by rewrite Has_before_last by lia.
  - rewrite Z.add_0_l.
    replace (seqZ (len ws * N) N) with (Z.add (len ws * N) <$> seqZ 0 N)
      by (rewrite fmap_add_seqZ; f_equal; lia).
    rewrite filter_fmap. f_equal. unfold set_bits.
    apply filter_ext_elem. intros j Hj. rewrite elem_of_seqZ in Hj.
    rewrite Has_last_word by lia. split; [by intros [= ->] | by intros ->].
Qed.

(** [Elems] returns the members in ascending order. *)
Lemma Elems_members (s : IntSet) : fits_int s → Elems s = members s.
Proof.
  destruct s as [ws]. unfold fits_int. cbn [words].
  induction ws as [| w ws IH] using rev_ind; intros Hfit.
  { unfold members. cbn [words]. by rewrite seqZ_nil. }
  assert (len (ws ++ [w]) = len ws + 1) as Hlen.
  { unfold len. rewrite length_app. cbn [length]. lia. }
  rewrite Hlen in Hfit. pose proof N_pos.
  rewrite Elems_snoc, members_snoc, IH by (unfold len in *; nia).
  f_equal. apply list_fmap_ext. intros k j Hj.
  apply list_elem_of_lookup_2, list_elem_of_filter in Hj as [_ Hj].
  rewrite elem_of_seqZ in Hj.
  apply elem_at_small; unfold len in *; lia.
Qed.

Lemma filter_seqZ_sorted (P : Z → Prop) `{!∀ x, Decision (P x)} (m n : Z) :
  StronglySorted Z.lt (filter P (seqZ m n)).
Proof.
  remember (Z.to_nat n) as k eqn:Hk. revert m n Hk.
  induction k as [| k IH]; intros m n Hk.
  - rewrite seqZ_nil by lia. constructor.
  - rewrite seqZ_cons by lia. rewrite filter_cons.
    assert (StronglySorted Z.lt (filter P (seqZ (Z.succ m) (Z.pred n))))
      by (apply IH; lia).
    destruct (decide (P m)); [| done].
    constructor; [done |]. apply Forall_forall. intros y Hy.
    apply list_elem_of_filter in Hy as [_ Hy]. rewrite elem_of_seqZ in Hy. lia.
Qed.

Lemma members_sorted (s : IntSet) : StronglySorted Z.lt (members s).
Proof. apply filter_seqZ_sorted. Qed.

Lemma Has_true_bound (s : IntSet) (x : Z) :
  0 <= x → Has s x = Some true → x < len (words s) * N.
Proof.
  intros Hx. rewrite Has_mem by done. unfold mem. intros [= Hbit].
  pose proof N_pos. pose proof (word_of_range x Hx) as Hw.
  destruct (decide (word_of x < len (words s))) as [Hlt | Hge].
  - rewrite word_of_nonneg in Hlt by done.
    destruct (decide (x < len (words s) * N)) as [| Hx']; [done |].
    pose proof (Z.div_le_lower_bound x N (len (words s)) H). lia.
  - rewrite word_at_ge, Z.bits_0 in Hbit by (unfold len in Hge; lia). done.
Qed.

Lemma elem_of_members (s : IntSet) (x : Z) :
  x ∈ members s ↔ 0 <= x ∧ Has s x = Some true.
Proof.
  unfold members. rewrite list_elem_of_filter, elem_of_seqZ. split.
  - intros [H1 H2]. split; [lia | done].
  - intros [H1 H2]. split; [done |]. pose proof (Has_true_bound s x H1 H2). lia.
Qed.

(** ** The words never outgrow [int] *)

Lemma store_length (ws ws' : list Z) (i v : Z) :
  store ws i v = Some ws' → length ws' = length ws.
Proof.
  unfold store. destruct (decide (0 <= i < len ws)); [| done].
  intros [= <-]. apply length_insert.
Qed.

Lemma Add_length (s s' : IntSet) (x : Z) :
  Add s x = Some s' →
  len (words s') = Z.max (len (words s)) (word_of x + 1).
Proof.
  unfold Add. intros H.
  destruct (index _ _) as [w |]; [| done]. simpl in H.
  destruct (store _ _ _) as [ws' |] eqn:E; [| done]. simpl in H.
  injection H as <-. cbn [words]. unfold len at 1.
  rewrite (store_length _ _ _ _ E). apply Add_grow_length.
Qed.

Lemma Remove_length (s s' : IntSet) (x : Z) :
  Remove s x = Some s' → length (words s') = length (words s).
Proof.
  unfold Remove. intros H.
  destruct (decide (word_of x >= len (words s))); [by injection H as <- |].
  destruct (index _ _) as [w |]; [| done]. simpl in H.
  destruct (store _ _ _) as [ws' |] eqn:E; [| done]. simpl in H.
  injection H as <-. cbn [words]. by apply store_length in E.
Qed.

Lemma word_of_int (x : Z) : is_int x → (word_of x + 1) * N <= 2 ^ (uint_bits - 1).
Proof.
  unfold is_int, word_of. rewrite N_uint_bits.
  destruct pf; unfold uint_bits; cbn match;
    intros Hx; Z.quot_rem_to_equations; lia.
Qed.

Lemma reachable_fits_int (s : IntSet) : reachable s → fits_int s.
Proof.
  unfold fits_int. pose proof N_pos as HN.
  induction 1 as [| s x s' _ IH Hx HAdd | s x s' _ IH _ HRem | s _ _ | s _ IH
                 | s t _ IHs _ IHt | s t _ IHs _ IHt | s t _ IHs _ IHt
                 | s t _ IHs _ IHt].
  - unfold len. cbn [zero_IntSet words length]. apply Z.pow_nonneg. lia.
  - rewrite (Add_length _ _ _ HAdd). pose proof (word_of_int x Hx). nia.
  - unfold len in *. by rewrite (Remove_length _ _ _ HRem).
  - unfold len. cbn [Clear words length]. apply Z.pow_nonneg. lia.
  - by rewrite Copy_words.
  - unfold len in *. rewrite UnionWith_length. nia.
  - unfold len in *. by rewrite IntersectWith_length.
  - unfold len in *. by rewrite DifferenceWith_length.
  - unfold len in *. rewrite SymmetricDifference_length. nia.
Qed.

End Theory.


(** ** The store model acts on the words as the value model does *)

Section StoreTheory.
Variable growcap : nat → nat.
Context {pf : platform}.
Implicit Types (arrs : gmap Store.loc (list Z)) (sl tl : Store.slice).

Lemma contents_length arrs sl :
  Store.wf_slice arrs sl → length (Store.contents arrs sl) = Store.slen sl.
Proof.
  intros [Hle Hb]. unfold Store.contents, Store.array_of.
  rewrite length_take. destruct (Store.base sl) as [b |].
  - destruct Hb as (a & -> & Ha). simpl. lia.
  - simpl. lia.
Qed.

Lemma index_sim arrs sl (i : Z) :
  Store.wf_slice arrs sl →
  Store.index arrs sl i = index (Store.contents arrs sl) i.
Proof.
  intros Hwf. unfold Store.index, index, len.
  rewrite (contents_length _ _ Hwf).
  destruct (decide (0 <= i < Z.of_nat (Store.slen sl))); [| done].
  unfold Store.contents. by rewrite lookup_take_lt by lia.
Qed.

Lemma store_sim arrs sl (i v : Z) :
  Store.wf_slice arrs sl →
  match Store.store arrs sl i v with
  | Some arrs' =>
      store (Store.contents arrs sl) i v = Some (Store.contents arrs' sl) ∧
      Store.wf_slice arrs' sl ∧
      ∀ tl, apart arrs sl tl →
            apart arrs' sl tl ∧
            Store.contents arrs' tl = Store.contents arrs tl
  | None => store (Store.contents arrs sl) i v = None
  end.
Proof.
  intros Hwf. pose proof (contents_length _ _ Hwf) as Hlen.
  unfold Store.store, store, len. rewrite Hlen.
  destruct (decide (0 <= i < Z.of_nat (Store.slen sl))) as [Hi |]; [| done].
  destruct Hwf as [Hle Hb].
  destruct (Store.base sl) as [b |] eqn:Eb; [| lia].
  destruct Hb as (a & Ha & Hcap). simpl.
  assert (Store.array_of arrs sl = a) as Harr
    by (unfold Store.array_of; by rewrite Eb, Ha).
  split; [| split].
  - f_equal. unfold Store.contents, Store.array_of.
    rewrite Eb, Ha, lookup_insert_eq. simpl.
    by rewrite take_insert_lt by lia.
  - split; [done |]. rewrite Eb. exists (<[Z.to_nat i := v]> a).
    rewrite Harr, lookup_insert_eq, length_insert. done.
  - intros tl [[Hle' Hb'] Hne]. specialize (Hne b Eb).
    unfold apart, Store.wf_slice, Store.contents, Store.array_of.
    destruct (Store.base tl) as [b' |]; [| by rewrite Eb].
    assert (b ≠ b') by congruence.
    rewrite lookup_insert_ne by done. rewrite Eb. repeat split; try done.
    intros ? [= <-]. congruence.
Qed.

Lemma append_sim arrs sl (v : Z) :
  Store.wf_slice arrs sl →
  Store.contents (Store.append growcap arrs sl v).2
                 (Store.append growcap arrs sl v).1
  = Store.contents arrs sl ++ [v] ∧
  Store.wf_slice (Store.append growcap arrs sl v).2
                 (Store.append growcap arrs sl v).1 ∧
  ∀ tl, apart arrs sl tl →
        apart (Store.append growcap arrs sl v).2
              (Store.append growcap arrs sl v).1 tl ∧
        Store.contents (Store.append growcap arrs sl v).2 tl
        = Store.contents arrs tl.
Proof.
  intros [Hle Hb]. unfold Store.append.
  set (b' := fresh (dom arrs)).
  assert (arrs !! b' = None) as Hfresh
    by (apply not_elem_of_dom, is_fresh).
  assert (∀ tl, Store.wf_slice arrs tl → Store.base tl ≠ Some b') as Hother.
  { intros tl [_ Ht] E. rewrite E in Ht. destruct Ht as (a & Ha & _).
    congruence. }
  assert (∀ a c tl, apart arrs sl tl →
            apart (<[b' := a]> arrs)
              {| Store.base := Some b'; Store.slen := S (Store.slen sl);
                 Store.scap := c |} tl ∧
            Store.contents (<[b' := a]> arrs) tl = Store.contents arrs tl)
    as Hrealloc.
  { intros a c tl [Hwf Hne]. pose proof (Hother tl Hwf) as Hb'.
    unfold apart, Store.wf_slice, Store.contents, Store.array_of in *.
    cbn [Store.base].
    destruct (Store.base tl) as [bt |]; [| repeat split; by try apply Hwf].
    assert (b' ≠ bt) by congruence.
    rewrite lookup_insert_ne by done. repeat split; try apply Hwf.
    intros ? [= <-]. congruence. }
  destruct (Store.base sl) as [b |] eqn:Eb.
  - destruct Hb as (a & Ha & Hcap).
    assert (Store.array_of arrs sl = a) as Harr
      by (unfold Store.array_of; by rewrite Eb, Ha).
    destruct (decide (Store.slen sl < Store.scap sl)%nat) as [Hlt | Hge];
      cbn [fst snd].
    + split; [| split].
      * unfold Store.contents, Store.array_of. cbn [Store.base Store.slen].
        rewrite Eb, Ha, lookup_insert_eq. cbn [default from_option id].
        rewrite (take_S_r _ _ v) by (apply list_lookup_insert_eq; lia).
        by rewrite take_insert_ge by lia.
      * split; cbn [Store.base Store.slen Store.scap]; [lia |].
        exists (<[Store.slen sl := v]> a).
        by rewrite Harr, lookup_insert_eq, length_insert.
      * intros tl [[Hle' Hb'] Hne]. specialize (Hne b Eb).
        unfold apart, Store.wf_slice, Store.contents, Store.array_of.
        cbn [Store.base].
        destruct (Store.base tl) as [bt |]; [| done].
        assert (b ≠ bt) by congruence.
        rewrite lookup_insert_ne by done. repeat split; try done.
        intros ? [= <-]. congruence.
    + split; [| split]; [| | by apply Hrealloc].
      * unfold Store.contents at 1, Store.array_of at 1.
        cbn [Store.base Store.slen]. rewrite lookup_insert_eq. cbn [default from_option id].
        rewrite Harr. unfold Store.contents. rewrite Harr.
        rewrite (app_assoc _ [v]).
        rewrite take_app_length'; [done |].
        rewrite length_app, length_take. simpl. lia.
      * split; cbn [Store.base Store.slen Store.scap]; [lia |].
        eexists. rewrite lookup_insert_eq. split; [done |].
        rewrite Harr, !length_app, length_take, length_replicate. simpl. lia.
  - assert (Store.slen sl = 0%nat) as Hz by lia.
    assert (Store.array_of arrs sl = []) as Harr
      by (unfold Store.array_of; by rewrite Eb).
    cbn [fst snd]. split; [| split]; [| | by apply Hrealloc].
    + unfold Store.contents at 1, Store.array_of at 1.
      cbn [Store.base Store.slen]. rewrite lookup_insert_eq. cbn [default from_option id].
      unfold Store.contents. rewrite Harr, Hz. done.
    + split; cbn [Store.base Store.slen Store.scap]; [lia |].
      eexists. rewrite lookup_insert_eq. split; [done |].
      rewrite Harr, !length_app, length_take, length_replicate. simpl. lia.
Qed.

Lemma Add_grow_step (word : Z) (ws : list Z) :
  word >= len ws → Add_grow word ws = Add_grow word (ws ++ [0]).
Proof.
  intros Hge. rewrite !Add_grow_spec. unfold len in *.
  rewrite length_app. cbn [length].
  replace (Z.to_nat (word + 1 - Z.of_nat (length ws)))
    with (S (Z.to_nat (word + 1 - Z.of_nat (length ws + 1)))) by lia.
  cbn [replicate]. by rewrite <- app_assoc.
Qed.

Lemma Add_grow_stop (word : Z) (ws : list Z) :
  ¬ word >= len ws → Add_grow word ws = ws.
Proof.
  intros Hlt. rewrite Add_grow_spec. unfold len in *.
  replace (Z.to_nat (word + 1 - Z.of_nat (length ws))) with 0%nat by lia.
  apply app_nil_r.
Qed.

Lemma Add_grow_sim (word : Z) (st : Store.slice * gmap Store.loc (list Z)) :
  Store.wf_slice st.2 st.1 →
  Store.contents (Store.Add_grow growcap word st).2
                 (Store.Add_grow growcap word st).1
  = Add_grow word (Store.contents st.2 st.1) ∧
  Store.wf_slice (Store.Add_grow growcap word st).2
                 (Store.Add_grow growcap word st).1 ∧
  ∀ tl, apart st.2 st.1 tl →
        apart (Store.Add_grow growcap word st).2
              (Store.Add_grow growcap word st).1 tl ∧
        Store.contents (Store.Add_grow growcap word st).2 tl
        = Store.contents st.2 tl.
Proof.
  funelim (Store.Add_grow growcap word st); intros Hwf.
  - destruct (append_sim st.2 st.1 0 Hwf) as (Hc & Hwf' & Hframe).
    destruct (H Hwf') as (IHc & IHwf & IHframe).
    split; [| split].
    + rewrite IHc, Hc. symmetry. apply Add_grow_step.
      unfold len. by rewrite (contents_length _ _ Hwf).
    + done.
    + intros tl Htl. destruct (Hframe tl Htl) as [Htl' E1].
      destruct (IHframe tl Htl') as [Htl'' E2]. split; [done | congruence].
  - split; [| split]; [| done | done].
    symmetry. apply Add_grow_stop.
    unfold len. by rewrite (contents_length _ _ Hwf).
Qed.

Lemma Has_sim (h : Store.heap) (s : Store.loc) sl (x : Z) :
  Store.structs h !! s = Some sl → Store.wf_slice (Store.arrays h) sl →
  Store.Has h s x = Has {| words := Store.contents (Store.arrays h) sl |} x.
Proof.
  intros Hs Hwf. unfold Store.Has, Has, len. rewrite Hs. cbn [mbind option_bind words].
  rewrite (contents_length _ _ Hwf), index_sim by done. done.
Qed.

(** [Add] in the store: it returns exactly when the value-model [Add] does,
    with its words; every slice apart from the receiver's keeps its
    contents and stays apart from it. *)
Lemma Add_sim (h : Store.heap) (s : Store.loc) sl (x : Z) :
  Store.structs h !! s = Some sl → Store.wf_slice (Store.arrays h) sl →
  match Store.Add growcap h s x with
  | Some h' =>
      ∃ sl', Store.structs h' = <[s := sl']> (Store.structs h) ∧
             Store.wf_slice (Store.arrays h') sl' ∧
             Add {| words := Store.contents (Store.arrays h) sl |} x
             = Some {| words := Store.contents (Store.arrays h') sl' |} ∧
             ∀ tl, apart (Store.arrays h) sl tl →
                   apart (Store.arrays h') sl' tl ∧
                   Store.contents (Store.arrays h') tl
                   = Store.contents (Store.arrays h) tl
  | None => Add {| words := Store.contents (Store.arrays h) sl |} x = None
  end.
Proof.
  intros Hs Hwf. unfold Store.Add, Add. rewrite Hs.
  cbn [mbind option_bind words].
  pose proof (Add_grow_sim (word_of x) (sl, Store.arrays h) Hwf) as HG.
  destruct (Store.Add_grow growcap (word_of x) (sl, Store.arrays h))
    as [sl1 arrs1]. cbn [fst snd] in HG.
  destruct HG as (Hc1 & Hwf1 & Hframe1). rewrite <- Hc1.
  rewrite (index_sim arrs1 sl1) by done.
  destruct (index (Store.contents arrs1 sl1) (word_of x)) as [w |];
    cbn [mbind option_bind]; [| done].
  pose proof (store_sim arrs1 sl1 (word_of x)
                (Z.lor w (uint_shl 1 (bit_of x))) Hwf1) as HS.
  destruct (Store.store arrs1 sl1 (word_of x) _) as [arrs2 |];
    cbn [mbind option_bind].
  - destruct HS as (Hst & Hwf2 & Hframe2). exists sl1.
    unfold Store.set_arrays, Store.set_struct.
    cbn [Store.arrays Store.structs].
    rewrite Hst. cbn [mbind option_bind].
    split; [done |]. split; [done |]. split; [done |].
    intros tl Htl. destruct (Hframe1 tl Htl) as [H1 E1].
    destruct (Hframe2 tl H1) as [H2 E2]. split; [done | congruence].
  - by rewrite HS.
Qed.

(** [Remove] in the store, likewise. *)
Lemma Remove_sim (h : Store.heap) (s : Store.loc) sl (x : Z) :
  Store.structs h !! s = Some sl → Store.wf_slice (Store.arrays h) sl →
  match Store.Remove h s x with
  | Some h' =>
      Store.structs h' = Store.structs h ∧
      Store.wf_slice (Store.arrays h') sl ∧
      Remove {| words := Store.contents (Store.arrays h) sl |} x
      = Some {| words := Store.contents (Store.arrays h') sl |} ∧
      ∀ tl, apart (Store.arrays h) sl tl →
            apart (Store.arrays h') sl tl ∧
            Store.contents (Store.arrays h') tl
            = Store.contents (Store.arrays h) tl
  | None => Remove {| words := Store.contents (Store.arrays h) sl |} x = None
  end.
Proof.
  intros Hs Hwf. unfold Store.Remove, Remove, len. rewrite Hs.
  cbn [mbind option_bind words]. rewrite (contents_length _ _ Hwf).
  destruct (decide (word_of x >= Z.of_nat (Store.slen sl))); [done |].
  rewrite index_sim by done.
  destruct (index (Store.contents (Store.arrays h) sl) (word_of x)) as [w |];
    cbn [mbind option_bind]; [| done].
  pose proof (store_sim (Store.arrays h) sl (word_of x)
                (uint_andnot w (uint_shl 1 (bit_of x))) Hwf) as HS.
  destruct (Store.store (Store.arrays h) sl (word_of x) _) as [arrs2 |];
    cbn [mbind option_bind].
  - destruct HS as (Hst & Hwf2 & Hframe2).
    unfold Store.set_arrays. cbn [Store.arrays Store.structs].
    rewrite Hst. done.
  - by rewrite HS.
Qed.

(** [Copy] in the store: a fresh struct whose slice has a fresh array with
    the words of the original; the original is as it was. *)
Lemma Copy_sim (h : Store.heap) (s : Store.loc) sl :
  Store.structs h !! s = Some sl → Store.wf_slice (Store.arrays h) sl →
  ∃ t tl h',
    Store.Copy h s = Some (t, h') ∧
    Store.structs h !! t = None ∧
    Store.structs h' = <[t := tl]> (Store.structs h) ∧
    Store.contents (Store.arrays h') tl
    = words (Copy {| words := Store.contents (Store.arrays h) sl |}) ∧
    Store.contents (Store.arrays h') sl = Store.contents (Store.arrays h) sl ∧
    apart (Store.arrays h') sl tl ∧
    apart (Store.arrays h') tl sl.
Proof.
  intros Hs Hwf. unfold Store.Copy. rewrite Hs. cbn [mbind option_bind].
  unfold Store.make, Store.copy, Store.set_arrays, Store.set_struct.
  cbn [Store.arrays Store.structs Store.base Store.slen].
  set (t := fresh (dom (Store.structs h))).
  set (b := fresh (dom (Store.arrays h))).
  set (n := Store.slen sl).
  assert (Store.structs h !! t = None) as Ht
    by (apply not_elem_of_dom, is_fresh).
  assert (Store.arrays h !! b = None) as Hb
    by (apply not_elem_of_dom, is_fresh).
  assert (Store.base sl ≠ Some b) as Hsb.
  { destruct Hwf as [_ Hwf]. intros E. rewrite E in Hwf.
    destruct Hwf as (a & Ha & _). congruence. }
  set (arrs1 := <[b := replicate n 0]> (Store.arrays h)).
  set (tl := {| Store.base := Some b; Store.slen := n; Store.scap := n |}).
  assert (Store.array_of arrs1 sl = Store.array_of (Store.arrays h) sl)
    as Harr.
  { unfold Store.array_of, arrs1. destruct (Store.base sl) as [bs |]; [| done].
    rewrite lookup_insert_ne by congruence. done. }
  assert (Store.array_of arrs1 tl = replicate n 0) as Harr'.
  { unfold Store.array_of, arrs1, tl. cbn [Store.base].
    by rewrite lookup_insert_eq. }
  rewrite Nat.min_id, Harr, Harr'.
  rewrite drop_ge, app_nil_r by (rewrite length_replicate; lia).
  fold (Store.contents (Store.arrays h) sl).
  pose proof (contents_length _ _ Hwf) as Hlen. fold n in Hlen.
  set (arrs2 := <[b := Store.contents (Store.arrays h) sl]> arrs1).
  assert (Store.contents arrs2 sl = Store.contents (Store.arrays h) sl)
    as Hcs.
  { unfold Store.contents, Store.array_of, arrs2, arrs1.
    destruct (Store.base sl) as [bs |]; [| done].
    rewrite !lookup_insert_ne by congruence. done. }
  assert (Store.wf_slice arrs2 sl) as Hwf2.
  { destruct Hwf as [Hle Hwf]. split; [done |].
    unfold arrs2, arrs1. destruct (Store.base sl) as [bs |]; [| done].
    rewrite !lookup_insert_ne by congruence. done. }
  assert (Store.wf_slice arrs2 tl) as Hwft.
  { split; [done |]. cbn [tl Store.base Store.scap].
    eexists. unfold arrs2. rewrite lookup_insert_eq. done. }
  exists t, tl. eexists. split; [done |].
  cbn [Store.arrays Store.structs].
  change (take n (Store.array_of (Store.arrays h) sl))
    with (Store.contents (Store.arrays h) sl).
  fold arrs2.
  split; [done |]. split; [by rewrite insert_insert_eq |].
  split; [| split; [done |]].
  - rewrite Copy_words. cbn [words].
    unfold Store.contents at 1, Store.array_of, arrs2, tl.
    cbn [Store.base Store.slen]. rewrite lookup_insert_eq.
    cbn [default from_option id]. by rewrite take_ge by lia.
  - split; (split; [done |]).
    + intros bs Ebs. cbn [tl Store.base]. congruence.
    + intros b' [= <-]. done.
Qed.

Lemma view_Some (h : Store.heap) (s : Store.loc) sl :
  Store.structs h !! s = Some sl →
  Store.view h s = Some {| words := Store.contents (Store.arrays h) sl |}.
Proof. intros Hs. unfold Store.view. by rewrite Hs. Qed.

(** A point mutation of the set at [p] is not seen through another struct
    [q] whose slice is apart from that of [p]; it is seen at [p]. *)
Lemma Add_store_frame (h : Store.heap) (p q : Store.loc) sl ql (x : Z) :
  Store.structs h !! p = Some sl → Store.structs h !! q = Some ql →
  p ≠ q → Store.wf_slice (Store.arrays h) sl →
  apart (Store.arrays h) sl ql → 0 <= x →
  ∃ h', Store.Add growcap h p x = Some h' ∧
        Store.view h' q = Store.view h q ∧
        (∀ y, Store.Has h' q y = Store.Has h q y) ∧
        Store.Has h' p x = Some true.
Proof.
  intros Hp Hq Hne Hwf Hapart Hx.
  pose proof (Add_sim h p sl x Hp Hwf) as HA.
  destruct (Add_mem {| words := Store.contents (Store.arrays h) sl |} x Hx)
    as (v & Hv & Hmem).
  destruct (Store.Add growcap h p x) as [h' |]; [| congruence].
  destruct HA as (sl' & Hst & Hwf' & HAdd & Hframe).
  destruct (Hframe ql Hapart) as [[Hwfq _] Hcq].
  assert (Store.structs h' !! q = Some ql) as Hq'
    by (by rewrite Hst, lookup_insert_ne).
  assert (Store.structs h' !! p = Some sl') as Hp'
    by (by rewrite Hst, lookup_insert_eq).
  exists h'. split; [done |]. split; [| split].
  - by rewrite (view_Some _ _ _ Hq), (view_Some _ _ _ Hq'), Hcq.
  - intros y. rewrite (Has_sim h' q ql), (Has_sim h q ql), Hcq;
      by try apply Hapart.
  - rewrite (Has_sim h' p sl') by done. rewrite Has_mem by done.
    rewrite Hv in HAdd. injection HAdd as ->.
    rewrite Hmem by done. by rewrite decide_True.
Qed.

Lemma Remove_store_frame (h : Store.heap) (p q : Store.loc) sl ql (x : Z) :
  Store.structs h !! p = Some sl → Store.structs h !! q = Some ql →
  p ≠ q → Store.wf_slice (Store.arrays h) sl →
  apart (Store.arrays h) sl ql → 0 <= x →
  ∃ h', Store.Remove h p x = Some h' ∧
        Store.view h' q = Store.view h q ∧
        (∀ y, Store.Has h' q y = Store.Has h q y) ∧
        Store.Has h' p x = Some false.
Proof.
  intros Hp Hq Hne Hwf Hapart Hx.
  pose proof (Remove_sim h p sl x Hp Hwf) as HR.
  destruct (Remove_mem {| words := Store.contents (Store.arrays h) sl |} x Hx)
    as (v & Hv & _ & Hmem).
  destruct (Store.Remove h p x) as [h' |]; [| congruence].
  destruct HR as (Hst & Hwf' & HRem & Hframe).
  destruct (Hframe ql Hapart) as [[Hwfq _] Hcq].
  assert (Store.structs h' !! q = Some ql) as Hq' by (by rewrite Hst).
  assert (Store.structs h' !! p = Some sl) as Hp' by (by rewrite Hst).
  exists h'. split; [done |]. split; [| split].
  - by rewrite (view_Some _ _ _ Hq), (view_Some _ _ _ Hq'), Hcq.
  - intros y. rewrite (Has_sim h' q ql), (Has_sim h q ql), Hcq;
      by try apply Hapart.
  - rewrite (Has_sim h' p sl) by done. rewrite Has_mem by done.
    rewrite Hv in HRem. injection HRem as ->.
    rewrite Hmem by done. by rewrite decide_True.
Qed.

End StoreTheory.

(** * The documented behaviour *)

Section Claims.
Context {pf : platform}.

(** C1.  [IntersectWith] is documented to set [s] to the intersection of
    [s] and [t], which asks that every word of [s] from the length of
    [t.words] on reads as zero afterwards.  The loop stops at the end of
    [t.words] and leaves those words as they were: with [s] the set holding
    [2*N] and [t] the set holding [0], the element [2*N], whose word index
    is beyond [t]'s words and which is not in [t], is still in [s] after
    [s.IntersectWith(t)]. *)
Theorem IntersectWith_keeps_receiver_tail :
  let s := {| words := [0; 0; 1] |} in
  let t := {| words := [1] |} in
  word_of (2 * N) >= len (words t) ∧
  Has s (2 * N) = Some true ∧
  Has t (2 * N) = Some false ∧
  words (IntersectWith s t) = [0; 0; 1] ∧
  Has (IntersectWith s t) (2 * N) = Some true.
Proof. by destruct pf. Qed.

(** C2.  For every set [s] and every non-negative [x]: [s.Add(x)] returns
    and [s.Has(x)] is then true; a subsequent [s.Remove(x)] returns and
    [s.Has(x)] is then false. *)
Theorem Add_Has_Remove (s : IntSet) (x : Z) :
  0 <= x →
  ∃ s1 s2, Add s x = Some s1 ∧ Has s1 x = Some true ∧
           Remove s1 x = Some s2 ∧ Has s2 x = Some false.
Proof.
  intros Hx.
  destruct (Add_mem s x Hx) as (s1 & HAdd & Hs1).
  destruct (Remove_mem s1 x Hx) as (s2 & HRem & _ & Hs2).
  exists s1, s2. repeat split; try done.
  - rewrite Has_mem, Hs1 by done. by rewrite decide_True.
  - rewrite Has_mem, Hs2 by done. by rewrite decide_True.
Qed.

(** C3, as amended.  [SymmetricDifference] is self-inverse for an operand
    that is not the receiver: for every set [A] and every set [B] that is
    another set than [A], so that the calls on [A] leave [B] as it is,
    after [A.SymmetricDifference(B)] twice [A.Has(x)] is what it was at the
    start, for every non-negative [x].  (With [B] being [A] itself the
    first call empties [A] and the second leaves it empty.) *)
Theorem SymmetricDifference_self_inverse (A B : IntSet) (x : Z) :
  0 <= x →
  Has (SymmetricDifference (SymmetricDifference A B) B) x = Has A x.
Proof.
  intros Hx. rewrite !Has_mem by done. f_equal.
  apply same_words_mem. intros k.
  rewrite !SymmetricDifference_word_at.
  by rewrite Z.lxor_assoc, Z.lxor_nilpotent, Z.lxor_0_r.
Qed.

(** C4.  [UnionWith] is commutative in membership: a copy of [A] united
    with [B] and a copy of [B] united with [A] have the same [Has(x)] for
    every non-negative [x]. *)
Theorem UnionWith_comm (A B : IntSet) (x : Z) :
  0 <= x →
  Has (UnionWith (Copy A) B) x = Has (UnionWith (Copy B) A) x.
Proof.
  intros Hx. rewrite !Has_mem by done. f_equal.
  apply same_words_mem. intros k.
  rewrite !UnionWith_word_at, !Copy_words. apply Z.lor_comm.
Qed.

(** C5.  After [s.Clear()] the set is the zero value of [IntSet], hence
    behaves as a freshly zero-initialized set in every respect: [Len()] is
    0, [Elems()] is empty, [String()] is ["{}"], and [Has(x)] is false for
    every non-negative [x]. *)
Theorem Clear_is_zero (s : IntSet) (x : Z) :
  0 <= x →
  Clear s = zero_IntSet ∧
  Len (Clear s) = 0 ∧
  Elems (Clear s) = [] ∧
  String (Clear s) = "{}" ∧
  Has (Clear s) x = Some false.
Proof.
  intros Hx. repeat split.
  rewrite Has_mem by done. unfold mem, word_at. cbn [Clear words].
  by rewrite lookup_nil, Z.bits_0.
Qed.

Lemma all_zero_replicate (ws : list Z) :
  Forall (λ w, w = 0) ws → ws = replicate (length ws) 0.
Proof. induction 1 as [| w ws -> _ IH]; [done |]. cbn. by rewrite <- IH. Qed.

(** C6.  For every set [s] (its words within reach of [int], as they are in
    every set built through the methods): [s.String()] is ["{"], the members
    of [s] as decimal integers separated by single spaces, ["}"]; where the
    members are listed in ascending order, each non-negative [x] with
    [s.Has(x)] and nothing else; and for a set whose words are all zero
    (the empty word sequence included) it is exactly ["{}"]. *)
Theorem String_canonical (s : IntSet) :
  fits_int s →
  String s = String_spec s ∧
  StronglySorted Z.lt (members s) ∧
  (∀ x, x ∈ members s ↔ 0 <= x ∧ Has s x = Some true) ∧
  (Forall (λ w, w = 0) (words s) → String s = "{}").
Proof.
  intros Hfit. split; [| split; [| split]].
  - rewrite String_Elems, Elems_members by done. done.
  - apply members_sorted.
  - intros x. apply elem_of_members.
  - intros Hz%all_zero_replicate. rewrite String_Elems.
    unfold Elems. rewrite Hz, Elems_loop_zeros. done.
Qed.

(** C8.  For every set [s] and non-negative [x] whose word index [x/N] is at
    or beyond [len(s.words)], [s.Remove(x)] returns and leaves [s] as it
    was; for every non-negative [x], [Remove] returns with as many words as
    before; and whenever [Remove] returns, for any argument at all, the
    number of words is what it was. *)
Theorem Remove_out_of_range (s : IntSet) (x : Z) :
  0 <= x →
  (word_of x >= len (words s) → Remove s x = Some s) ∧
  (∃ s', Remove s x = Some s' ∧ length (words s') = length (words s)) ∧
  (∀ y s', Remove s y = Some s' → length (words s') = length (words s)).
Proof.
  intros Hx. split; [| split].
  - intros Hge. unfold Remove. by rewrite decide_True.
  - destruct (Remove_mem s x Hx) as (s' & HRem & Hlen & _). by exists s'.
  - intros y s'. apply Remove_length.
Qed.

(** C9.  The observers do not see trailing zero words: if the words of [s2]
    are those of [s1] followed by any number of zero words, then [Has(x)]
    agrees on the two for every non-negative [x], and so do [Len()],
    [Elems()] and [String()]. *)
Theorem trailing_zero_words (s1 s2 : IntSet) (k : nat) :
  words s2 = words s1 ++ replicate k 0 →
  (∀ x, 0 <= x → Has s2 x = Has s1 x) ∧
  Len s2 = Len s1 ∧
  Elems s2 = Elems s1 ∧
  String s2 = String s1.
Proof.
  intros Hws.
  assert (Elems s2 = Elems s1) as HElems.
  { unfold Elems. by rewrite Hws, Elems_loop_app, Elems_loop_zeros. }
  split; [| split; [| split]].
  - intros x Hx. rewrite !Has_mem by done. f_equal.
    apply same_words_mem. intros i. rewrite Hws. apply word_at_app_zeros.
  - unfold Len. by rewrite Hws, Len_loop_app, Len_loop_zeros.
  - done.
  - by rewrite !String_Elems, HElems.
Qed.

(** C10.  Point mutations are local: for every set [s] and distinct
    non-negative [x] and [y], [s.Add(x)] returns and leaves [s.Has(y)] as it
    was, and so does [s.Remove(x)]. *)
Theorem Add_Remove_frame (s : IntSet) (x y : Z) :
  0 <= x → 0 <= y → x ≠ y →
  (∃ s', Add s x = Some s' ∧ Has s' y = Has s y) ∧
  (∃ s', Remove s x = Some s' ∧ Has s' y = Has s y).
Proof.
  intros Hx Hy Hne. split.
  - destruct (Add_mem s x Hx) as (s' & HAdd & Hs'). exists s'.
    split; [done |]. rewrite !Has_mem, Hs' by done. by rewrite decide_False.
  - destruct (Remove_mem s x Hx) as (s' & HRem & _ & Hs'). exists s'.
    split; [done |]. rewrite !Has_mem, Hs' by done. by rewrite decide_False.
Qed.

End Claims.

Section CopyClaim.
Variable growcap : nat → nat.
Context {pf : platform}.

(** C7.  For every set at [s], [s.Copy()] returns a new struct [t] whose
    set has the words, hence the membership, of [s], and whose slice has a
    backing array of its own; [s] is as it was.  Whatever non-negative [x]
    is then added to or removed from the copy, the change is made in the
    copy and the original keeps its words and its [Has(y)] for every [y];
    and the same with the roles of the two exchanged. *)
Theorem Copy_independent (h : Store.heap) (s : Store.loc) (x : Z) :
  Store.wf_set h s → 0 <= x →
  ∃ t h',
    Store.Copy h s = Some (t, h') ∧
    Store.structs h !! t = None ∧
    Store.view h' t = Store.view h s ∧
    Store.view h' s = Store.view h s ∧
    Store.disjoint h' s t ∧
    (∃ h'', Store.Add growcap h' t x = Some h'' ∧
            Store.Has h'' t x = Some true ∧
            Store.view h'' s = Store.view h s ∧
            ∀ y, Store.Has h'' s y = Store.Has h s y) ∧
    (∃ h'', Store.Remove h' t x = Some h'' ∧
            Store.Has h'' t x = Some false ∧
            Store.view h'' s = Store.view h s ∧
            ∀ y, Store.Has h'' s y = Store.Has h s y) ∧
    (∃ h'', Store.Add growcap h' s x = Some h'' ∧
            Store.Has h'' s x = Some true ∧
            Store.view h'' t = Store.view h' t ∧
            ∀ y, Store.Has h'' t y = Store.Has h' t y) ∧
    (∃ h'', Store.Remove h' s x = Some h'' ∧
            Store.Has h'' s x = Some false ∧
            Store.view h'' t = Store.view h' t ∧
            ∀ y, Store.Has h'' t y = Store.Has h' t y).
Proof.
  intros (sl & Hs & Hwf) Hx.
  destruct (Copy_sim h s sl Hs Hwf)
    as (t & tl & h' & HCopy & Ht & Hst & Hct & Hcs & Hapart_t & Hapart_s).
  assert (s ≠ t) as Hne by congruence.
  assert (Store.structs h' !! s = Some sl) as Hs'
    by (by rewrite Hst, lookup_insert_ne).
  assert (Store.structs h' !! t = Some tl) as Ht'
    by (by rewrite Hst, lookup_insert_eq).
  assert (Store.view h' s = Store.view h s) as Hvs
    by (by rewrite (view_Some _ _ _ Hs), (view_Some _ _ _ Hs'), Hcs).
  assert (∀ y, Store.Has h' s y = Store.Has h s y) as HHs.
  { intros y. rewrite (Has_sim h' s sl), (Has_sim h s sl), Hcs;
      by try apply Hapart_s. }
  exists t, h'. split; [done |]. split; [done |]. split.
  { rewrite (view_Some _ _ _ Hs), (view_Some _ _ _ Ht'), Hct.
    by rewrite Copy_words. }
  split; [done |]. split.
  { split; [done |]. intros sl0 tl0 b. rewrite Hs', Ht'.
    intros [= <-] [= <-]. apply Hapart_t. }
  split; [| split; [| split]].
  - destruct (Add_store_frame growcap h' t s tl sl x)
      as (h'' & HA & Hv & HH & Hin); try done; [apply Hapart_t |].
    exists h''. rewrite Hv. split; [done |]. split; [done |].
    split; [done |]. intros y. by rewrite HH.
  - destruct (Remove_store_frame h' t s tl sl x)
      as (h'' & HR & Hv & HH & Hout); try done; [apply Hapart_t |].
    exists h''. rewrite Hv. split; [done |]. split; [done |].
    split; [done |]. intros y. by rewrite HH.
  - destruct (Add_store_frame growcap h' s t sl tl x)
      as (h'' & HA & Hv & HH & Hin); try done; [apply Hapart_s |].
    by exists h''.
  - destruct (Remove_store_frame h' s t sl tl x)
      as (h'' & HR & Hv & HH & Hout); try done; [apply Hapart_s |].
    by exists h''.
Qed.

End CopyClaim.

(** * Further behaviour of the methods *)

Section SetAlgebra.
Context {pf : platform}.

Lemma testbit_andnot (w v c : Z) :
  0 <= c < N →
  Z.testbit (uint_andnot w v) c = Z.testbit w c && negb (Z.testbit v c).
Proof.
  intros Hc. unfold uint_andnot, uint_not, to_uint.
  rewrite Z.land_spec, Z.mod_pow2_bits_low by (rewrite <- N_uint_bits; lia).
  by rewrite Z.lnot_spec by lia.
Qed.

(** Membership after each word-parallel method, read off the words. *)
Lemma UnionWith_mem (s t : IntSet) (x : Z) :
  mem (words (UnionWith s t)) x = mem (words s) x || mem (words t) x.
Proof. unfold mem. rewrite UnionWith_word_at. apply Z.lor_spec. Qed.

Lemma SymmetricDifference_mem (s t : IntSet) (x : Z) :
  mem (words (SymmetricDifference s t)) x
  = xorb (mem (words s) x) (mem (words t) x).
Proof. unfold mem. rewrite SymmetricDifference_word_at. apply Z.lxor_spec. Qed.

Lemma IntersectWith_mem (s t : IntSet) (x : Z) :
  mem (words (IntersectWith s t)) x =
  if decide (Z.to_nat (word_of x) < length (words t))%nat
  then mem (words s) x && mem (words t) x else mem (words s) x.
Proof.
  unfold mem. rewrite IntersectWith_word_at.
  destruct (decide (Z.to_nat (word_of x) < length (words t))%nat); [| done].
  apply Z.land_spec.
Qed.

Lemma DifferenceWith_mem (s t : IntSet) (x : Z) :
  0 <= x →
  mem (words (DifferenceWith s t)) x
  = mem (words s) x && negb (mem (words t) x).
Proof.
  intros Hx. pose proof (bit_of_range x Hx) as Hb.
  unfold mem. rewrite DifferenceWith_word_at.
  set (k := Z.to_nat (word_of x)).
  destruct (decide (k < length (words t) `min` length (words s))%nat)
    as [Hlt | Hge].
  - by apply testbit_andnot.
  - destruct (decide (k < length (words s))%nat).
    + rewrite (word_at_ge (words t)) by lia.
      by rewrite Z.bits_0, andb_true_r.
    + rewrite (word_at_ge (words s)) by lia. by rewrite Z.bits_0.
Qed.

(** X1.  After [s.UnionWith(t)], a non-negative [x] is in [s] exactly when
    it was in [s] or is in [t]. *)
Theorem UnionWith_Has (s t : IntSet) (x : Z) :
  0 <= x →
  Has (UnionWith s t) x = (a ← Has s x; b ← Has t x; Some (a || b)).
Proof.
  intros Hx. rewrite !Has_mem by done. cbn [mbind option_bind].
  by rewrite UnionWith_mem.
Qed.

(** X2.  What [s.IntersectWith(t)] does at every non-negative [x]: where
    the word of [x] is within [t.words], [x] stays exactly when it is in
    both sets; beyond [t.words], [x] stays whenever it was in [s]. *)
Theorem IntersectWith_Has (s t : IntSet) (x : Z) :
  0 <= x →
  Has (IntersectWith s t) x =
  if decide (word_of x < len (words t))
  then a ← Has s x; b ← Has t x; Some (a && b)
  else Has s x.
Proof.
  intros Hx. pose proof (word_of_range x Hx) as Hw.
  rewrite !Has_mem by done. cbn [mbind option_bind].
  rewrite IntersectWith_mem. unfold len.
  destruct (decide (word_of x < Z.of_nat (length (words t)))).
  - by rewrite decide_True by lia.
  - by rewrite decide_False by lia.
Qed.

(** X3.  When the receiver has no more words than the operand,
    [s.IntersectWith(t)] is the intersection: a non-negative [x] stays
    exactly when it is in both sets. *)
Theorem IntersectWith_Has_short_receiver (s t : IntSet) (x : Z) :
  (length (words s) <= length (words t))%nat → 0 <= x →
  Has (IntersectWith s t) x = (a ← Has s x; b ← Has t x; Some (a && b)).
Proof.
  intros Hlen Hx. rewrite !Has_mem by done. cbn [mbind option_bind].
  rewrite IntersectWith_mem.
  destruct (decide (Z.to_nat (word_of x) < length (words t))%nat); [done |].
  unfold mem. rewrite (word_at_ge (words s)) by lia. by rewrite Z.bits_0.
Qed.

(** X4.  After [s.DifferenceWith(t)], a non-negative [x] is in [s] exactly
    when it was in [s] and is not in [t], whatever the lengths of the two
    word sequences. *)
Theorem DifferenceWith_Has (s t : IntSet) (x : Z) :
  0 <= x →
  Has (DifferenceWith s t) x = (a ← Has s x; b ← Has t x; Some (a && negb b)).
Proof.
  intros Hx. rewrite !Has_mem by done. cbn [mbind option_bind].
  by rewrite DifferenceWith_mem.
Qed.

(** X5.  After [s.SymmetricDifference(t)], a non-negative [x] is in [s]
    exactly when it was in one of the two sets and not in the other. *)
Theorem SymmetricDifference_Has (s t : IntSet) (x : Z) :
  0 <= x →
  Has (SymmetricDifference s t) x = (a ← Has s x; b ← Has t x; Some (xorb a b)).
Proof.
  intros Hx. rewrite !Has_mem by done. cbn [mbind option_bind].
  by rewrite SymmetricDifference_mem.
Qed.

(** X6.  The number of words after each word-parallel method: [UnionWith]
    and [SymmetricDifference] leave the receiver with as many words as the
    longer of the two sets, [IntersectWith] and [DifferenceWith] with as
    many as it had; none of them shortens the receiver. *)
Theorem set_operation_lengths (s t : IntSet) :
  length (words (UnionWith s t))
  = (length (words s) `max` length (words t))%nat ∧
  length (words (SymmetricDifference s t))
  = (length (words s) `max` length (words t))%nat ∧
  length (words (IntersectWith s t)) = length (words s) ∧
  length (words (DifferenceWith s t)) = length (words s).
Proof.
  split; [apply UnionWith_length |].
  split; [apply SymmetricDifference_length |].
  split; [apply IntersectWith_length | apply DifferenceWith_length].
Qed.

(** X7.  [UnionWith] is associative and idempotent in membership: uniting
    with [B] and then with [C] gives the members of uniting with the union
    of [B] and [C], and uniting twice with [B] gives the members of uniting
    once. *)
Theorem UnionWith_assoc_idem (A B C : IntSet) (x : Z) :
  0 <= x →
  Has (UnionWith (UnionWith A B) C) x = Has (UnionWith A (UnionWith B C)) x ∧
  Has (UnionWith (UnionWith A B) B) x = Has (UnionWith A B) x.
Proof.
  intros Hx. rewrite !Has_mem by done.
  split; f_equal; apply same_words_mem; intros k;
    rewrite !UnionWith_word_at.
  - by rewrite Z.lor_assoc.
  - by rewrite <- Z.lor_assoc, Z.lor_diag.
Qed.

(** X8.  A set combined with a copy of itself: the union and the
    intersection have the members of the set, the difference and the
    symmetric difference have none. *)
Theorem operations_with_copy (s : IntSet) (x : Z) :
  0 <= x →
  Has (UnionWith s (Copy s)) x = Has s x ∧
  Has (IntersectWith s (Copy s)) x = Has s x ∧
  Has (DifferenceWith s (Copy s)) x = Some false ∧
  Has (SymmetricDifference s (Copy s)) x = Some false.
Proof.
  intros Hx. rewrite !Has_mem by done.
  rewrite UnionWith_mem, IntersectWith_mem, DifferenceWith_mem,
    SymmetricDifference_mem, Copy_words by done.
  destruct (mem (words s) x), (decide _); done.
Qed.

(** X9.  The symmetric difference is the union of the two differences,
    taken on copies so that [A] and [B] themselves stay as they are: a copy
    of [A] after [SymmetricDifference(B)] has the members of a copy of [A]
    after [DifferenceWith(B)] and then [UnionWith] of a copy of [B] after
    [DifferenceWith(A)]. *)
Theorem SymmetricDifference_as_differences (A B : IntSet) (x : Z) :
  0 <= x →
  Has (SymmetricDifference (Copy A) B) x
  = Has (UnionWith (DifferenceWith (Copy A) B) (DifferenceWith (Copy B) A)) x.
Proof.
  intros Hx. rewrite !Has_mem by done.
  rewrite SymmetricDifference_mem, UnionWith_mem, !DifferenceWith_mem,
    !Copy_words by done.
  by destruct (mem (words A) x), (mem (words B) x).
Qed.

End SetAlgebra.

Section PointOperations.
Context {pf : platform}.

Lemma Forall_nonneg_cons (v : Z) (vals : list Z) :
  Forall (λ v, 0 <= v) (v :: vals) → 0 <= v ∧ Forall (λ v, 0 <= v) vals.
Proof. intros H. by apply Forall_cons in H. Qed.

(** Membership after [AddAll] with non-negative values. *)
Lemma AddAll_Has_mem (s : IntSet) (vals : list Z) :
  Forall (λ v, 0 <= v) vals →
  ∃ s', AddAll s vals = Some s' ∧
        ∀ y, 0 <= y →
             mem (words s') y = bool_decide (y ∈ vals) || mem (words s) y.
Proof.
  revert s. induction vals as [| v vals IH]; intros s Hvals.
  - exists s. by split.
  - apply Forall_nonneg_cons in Hvals as [Hv Hvals].
    destruct (Add_mem s v Hv) as (s1 & HAdd & Hs1).
    destruct (IH s1 Hvals) as (s' & HAll & Hs').
    exists s'. split.
    + cbn [AddAll]. rewrite HAdd. done.
    + intros y Hy. rewrite Hs', Hs1 by done.
      destruct (decide (v = y)) as [-> | Hne].
      * rewrite (bool_decide_eq_true_2 (y ∈ y :: vals)) by left.
        by rewrite orb_true_r.
      * destruct (decide (y ∈ vals)) as [Hin | Hout].
        -- rewrite !bool_decide_eq_true_2; [done | by right | done].
        -- rewrite !bool_decide_eq_false_2; [done | | done].
           intros [-> | Hin]%elem_of_cons; done.
Qed.

(** X10.  [s.AddAll(vals...)] with non-negative values returns, and then a
    non-negative [y] is in [s] exactly when it is one of the values or was
    in [s] before. *)
Theorem AddAll_Has (s : IntSet) (vals : list Z) :
  Forall (λ v, 0 <= v) vals →
  ∃ s', AddAll s vals = Some s' ∧
        ∀ y, 0 <= y →
             Has s' y = (b ← Has s y; Some (bool_decide (y ∈ vals) || b)).
Proof.
  intros Hvals. destruct (AddAll_Has_mem s vals Hvals) as (s' & HAll & Hs').
  exists s'. split; [done |]. intros y Hy.
  rewrite !Has_mem, Hs' by done. done.
Qed.

Lemma lor_lor_same (a m : Z) : Z.lor (Z.lor a m) m = Z.lor a m.
Proof. by rewrite <- Z.lor_assoc, Z.lor_diag. Qed.

(** X11.  [Add] of a non-negative [x] leaves the set with as many words as
    it had, or with [x/N + 1] words if that is more; and adding [x] again
    changes nothing at all. *)
Theorem Add_grows_once (s : IntSet) (x : Z) :
  0 <= x →
  ∃ s1, Add s x = Some s1 ∧
        len (words s1) = Z.max (len (words s)) (x `div` N + 1) ∧
        Add s1 x = Some s1.
Proof.
  intros Hx. pose proof (word_of_range x Hx) as Hw.
  pose proof (Add_words s x Hx) as HAdd. cbv zeta in HAdd.
  set (k := Z.to_nat (word_of x)) in *.
  set (ws := words s ++ replicate (k + 1 - length (words s)) 0) in *.
  assert (k < length ws)%nat as Hk.
  { unfold ws. rewrite length_app, length_replicate. lia. }
  eexists. split; [exact HAdd |]. split.
  - rewrite (Add_length _ _ _ HAdd). by rewrite word_of_nonneg.
  - rewrite (Add_words _ x Hx). cbn [words]. fold k.
    rewrite length_insert.
    replace (k + 1 - length ws)%nat with 0%nat by lia.
    cbn [replicate]. rewrite app_nil_r.
    rewrite list_lookup_total_insert_eq by done.
    by rewrite lor_lor_same, list_insert_insert_eq.
Qed.

(** X12.  Adding a non-negative [x] that is not in the set and removing it
    again restores the membership of every non-negative element (the words
    added for [x] stay, as zero words). *)
Theorem Add_Remove_restores (s : IntSet) (x : Z) :
  0 <= x → Has s x = Some false →
  ∃ s1 s2, Add s x = Some s1 ∧ Remove s1 x = Some s2 ∧
           ∀ y, 0 <= y → Has s2 y = Has s y.
Proof.
  intros Hx Hout. rewrite Has_mem in Hout by done. injection Hout as Hout.
  destruct (Add_mem s x Hx) as (s1 & HAdd & Hs1).
  destruct (Remove_mem s1 x Hx) as (s2 & HRem & _ & Hs2).
  exists s1, s2. split; [done |]. split; [done |].
  intros y Hy. rewrite !Has_mem, Hs2, Hs1 by done.
  destruct (decide (x = y)) as [<- | _]; [by rewrite Hout | done].
Qed.

Lemma word_of_negative (x : Z) : x <= - N → word_of x < 0.
Proof.
  unfold word_of. destruct N_cases as [-> | ->];
    intros Hx; Z.quot_rem_to_equations; lia.
Qed.

(** X13.  An argument at or below [-N] has a negative word index, and
    indexing with it panics: [Has], [Add] and [Remove] do not return, and
    [AddAll] does not return when one of its values is such. *)
Theorem negative_word_index_panics (s : IntSet) (x : Z) (vals : list Z) :
  x <= - N →
  Has s x = None ∧ Add s x = None ∧ Remove s x = None ∧
  (x ∈ vals → AddAll s vals = None).
Proof.
  intros Hx. pose proof (word_of_negative x Hx) as Hw.
  assert (∀ ws, index ws (word_of x) = None) as Hidx.
  { intros ws. unfold index. by rewrite decide_False by lia. }
  assert (∀ s0, Add s0 x = None) as HAdd.
  { intros s0. unfold Add. by rewrite Hidx. }
  split; [| split; [| split]].
  - unfold Has. rewrite decide_True by (unfold len; lia). by rewrite Hidx.
  - apply HAdd.
  - unfold Remove. rewrite decide_False by (unfold len; lia).
    by rewrite Hidx.
  - revert s. induction vals as [| v vals IH]; intros s Hin.
    + by apply elem_of_nil in Hin.
    + cbn [AddAll]. apply elem_of_cons in Hin as [<- | Hin].
      * by rewrite HAdd.
      * destruct (Add s v) as [s1 |]; [| done]. by apply IH.
Qed.

Lemma bit_of_negative (x : Z) : - N < x < 0 → uint_shl 1 (bit_of x) = 0.
Proof.
  intros Hx. unfold uint_shl, bit_of, to_uint.
  assert (x `rem` N = x) as ->.
  { destruct N_cases as [E | E]; rewrite E in *;
      Z.quot_rem_to_equations; lia. }
  assert (0 < 2 ^ uint_bits) as Hpos by (apply Z.pow_pos_nonneg; by destruct pf).
  assert (uint_bits <= x mod 2 ^ uint_bits) as Hbig.
  { assert (x mod 2 ^ uint_bits = x + 2 ^ uint_bits) as ->.
    { symmetry. apply Z.mod_unique_pos with (q := -1); [| lia].
      rewrite <- N_uint_bits in *.
      pose proof (Z.pow_gt_lin_r 2 N). lia. }
    rewrite <- N_uint_bits in *. pose proof (Z.pow_gt_lin_r 2 N).
    destruct N_cases as [E | E]; rewrite E in *; lia. }
  rewrite Z.shiftl_1_l.
  replace (x mod 2 ^ uint_bits)
    with ((x mod 2 ^ uint_bits - uint_bits) + uint_bits) by lia.
  rewrite Z.pow_add_r by (lia || by destruct pf).
  apply Z.mod_mul. lia.
Qed.

Lemma word_of_small_negative (x : Z) : - N < x < 0 → word_of x = 0.
Proof.
  unfold word_of. destruct N_cases as [-> | ->];
    intros Hx; Z.quot_rem_to_equations; lia.
Qed.

(** X14.  A negative argument above [-N] has word index 0 and a shift count
    beyond the word size, so its mask is zero: [Has] is false, and [Add]
    and [Remove] return without changing the membership of any
    non-negative element ([Add] still allocates the first word of an empty
    set). *)
Theorem small_negative_ignored (s : IntSet) (x : Z) :
  - N < x < 0 →
  Has s x = Some false ∧
  Add s x = Some {| words := if decide (words s = []) then [0] else words s |} ∧
  ∃ s', Remove s x = Some s' ∧ ∀ y, 0 <= y → Has s' y = Has s y.
Proof.
  intros Hx. pose proof (bit_of_negative x Hx) as Hmask.
  pose proof (word_of_small_negative x Hx) as Hw.
  split; [| split].
  - unfold Has. rewrite Hw, Hmask.
    destruct (decide (0 < len (words s))); [| done].
    rewrite index_Some by lia. cbn [mbind option_bind].
    by rewrite Z.land_0_r.
  - unfold Add. rewrite Hw, Hmask, Add_grow_spec.
    destruct s as [[| w ws]]; cbn [words]; [done |].
    rewrite decide_False by done.
    replace (Z.to_nat (0 + 1 - len (w :: ws))) with 0%nat
      by (unfold len; cbn [length]; lia).
    cbn [replicate]. rewrite app_nil_r.
    rewrite index_Some by (unfold len; cbn [length]; lia).
    cbn [mbind option_bind].
    rewrite store_Some by (unfold len; cbn [length]; lia).
    cbn [mbind option_bind]. by rewrite Z.lor_0_r.
  - unfold Remove. rewrite Hw, Hmask.
    destruct (decide (0 >= len (words s))) as [| Hlen]; [by exists s |].
    rewrite index_Some by lia. cbn [mbind option_bind].
    rewrite store_Some by lia. cbn [mbind option_bind].
    eexists. split; [done |]. intros y Hy. rewrite !Has_mem by done.
    f_equal. unfold mem. cbn [words]. change (Z.to_nat 0) with 0%nat.
    pose proof (bit_of_range y Hy).
    rewrite word_at_insert by (unfold len in Hlen; lia).
    destruct (decide (0%nat = Z.to_nat (word_of y))) as [<- | _]; [| done].
    rewrite testbit_andnot by done.
    rewrite <- word_at_lt by (unfold len in Hlen; lia).
    by rewrite Z.bits_0, andb_true_r.
Qed.

End PointOperations.

Section Observers.
Context {pf : platform}.

Lemma to_int_is_int (z : Z) : is_int (to_int z).
Proof.
  unfold is_int, to_int.
  assert (2 ^ uint_bits = 2 * 2 ^ (uint_bits - 1)) as E.
  { rewrite <- Z.pow_succ_r by (destruct pf; done). f_equal. lia. }
  assert (0 < 2 ^ uint_bits) as Hpos by (apply Z.pow_pos_nonneg; by destruct pf).
  pose proof (Z.mod_pos_bound (z + 2 ^ (uint_bits - 1)) _ Hpos). lia.
Qed.

Lemma to_int_add (a b : Z) : to_int (to_int a + b) = to_int (a + b).
Proof.
  unfold to_int. f_equal.
  replace ((a + 2 ^ (uint_bits - 1)) `mod` 2 ^ uint_bits
           - 2 ^ (uint_bits - 1) + b + 2 ^ (uint_bits - 1))
    with ((a + 2 ^ (uint_bits - 1)) `mod` 2 ^ uint_bits + b) by lia.
  rewrite Z.add_mod_idemp_l by (apply Z.pow_nonzero; by destruct pf).
  f_equal. lia.
Qed.

(** The counter of [Len] after the bits of one word, and after a run of
    words: what it was plus the number of bits found, on [int]. *)
Lemma Len_bit_foldl (word n : Z) (l : list Z) :
  is_int n →
  foldl (Len_bit word) n l
  = to_int (n + Z.of_nat (length (filter (λ j, bit_set word j = true) l))).
Proof.
  revert n. induction l as [| j l IH]; intros n Hn; cbn [foldl].
  - rewrite filter_nil. cbn [length]. rewrite Z.add_0_r.
    symmetry. by apply to_int_small.
  - rewrite filter_cons. unfold Len_bit at 2.
    destruct (bit_set word j) eqn:E.
    + rewrite (decide_True (P := true = true)) by done.
      rewrite IH by apply to_int_is_int.
      rewrite to_int_add. f_equal. cbn [length]. lia.
    + rewrite (decide_False (P := false = true)) by done. by apply IH.
Qed.

Lemma Len_loop_count (i : Z) (ws : list Z) (n : Z) :
  is_int n →
  Len_loop ws n = to_int (n + Z.of_nat (length (Elems_loop i ws []))).
Proof.
  revert i n. induction ws as [| word ws IH]; intros i n Hn;
    cbn [Len_loop Elems_loop].
  - cbn [length]. rewrite Z.add_0_r. symmetry. by apply to_int_small.
  - rewrite Elems_loop_acc, Elems_bit_foldl, !length_app, length_fmap.
    cbn [length].
    destruct (decide (word = 0)) as [-> | Hne].
    + fold (set_bits 0). rewrite set_bits_0. cbn [length].
      rewrite (IH (i + 1)) by done. f_equal; lia.
    + rewrite Len_bit_foldl by done.
      rewrite (IH (i + 1)) by apply to_int_is_int.
      rewrite to_int_add. f_equal; lia.
Qed.

(** X15.  [Len] returns the number of elements that [Elems] returns,
    counted on [int]: the number itself whenever it is below [2^(w-1)], [w]
    the word size. *)
Theorem Len_counts_Elems (s : IntSet) :
  Len s = to_int (Z.of_nat (length (Elems s))) ∧
  (Z.of_nat (length (Elems s)) < 2 ^ (uint_bits - 1) →
   Len s = Z.of_nat (length (Elems s))).
Proof.
  assert (Len s = to_int (Z.of_nat (length (Elems s)))) as HLen.
  { unfold Len, Elems. rewrite (Len_loop_count 0); [done |].
    unfold is_int. assert (0 < 2 ^ (uint_bits - 1))
      by (apply Z.pow_pos_nonneg; by destruct pf). lia. }
  split; [done |]. intros Hlt. rewrite HLen. apply to_int_small.
  assert (0 < 2 ^ (uint_bits - 1)) by (apply Z.pow_pos_nonneg; by destruct pf).
  lia.
Qed.

(** X16.  For a set whose words are within reach of [int], [Elems] returns
    the members in strictly ascending order: every non-negative [x] with
    [Has(x)], once, and nothing else. *)
Theorem Elems_ascending_members (s : IntSet) :
  fits_int s →
  StronglySorted Z.lt (Elems s) ∧
  NoDup (Elems s) ∧
  ∀ x, x ∈ Elems s ↔ 0 <= x ∧ Has s x = Some true.
Proof.
  intros Hfit. rewrite (Elems_members s Hfit). split; [| split].
  - apply members_sorted.
  - apply NoDup_filter, NoDup_seqZ.
  - intros x. apply elem_of_members.
Qed.

(** X17.  [String] prints what [Elems] returns, for every set: the opening
    brace, the elements of [Elems] in decimal separated by single spaces,
    the closing brace. *)
Theorem String_prints_Elems (s : IntSet) :
  String s = "{" +:+ String.concat " " (pretty <$> Elems s) +:+ "}".
Proof. apply String_Elems. Qed.

(** X18.  The methods keep the words within reach of [int]: in every set
    built from the zero value through the methods, with [int] arguments,
    the number of words times [N] is at most [2^(w-1)], so that no element
    [i*N+j] that [Elems] and [String] compute overflows. *)
Theorem methods_keep_fits_int (s : IntSet) : reachable s → fits_int s.
Proof. apply reachable_fits_int. Qed.

Lemma AddAll_fits_int (s s' : IntSet) (vals : list Z) :
  Forall is_int vals → fits_int s → AddAll s vals = Some s' → fits_int s'.
Proof.
  revert s. induction vals as [| v vals IH]; intros s Hvals Hfit HAll.
  - by injection HAll as <-.
  - apply Forall_cons in Hvals as [Hv Hvals]. cbn [AddAll] in HAll.
    destruct (Add s v) as [s1 |] eqn:HAdd; [| done].
    apply (IH s1); [done | | done].
    unfold fits_int in *. rewrite (Add_length _ _ _ HAdd).
    pose proof (word_of_int v Hv). pose proof N_pos. nia.
Qed.

Lemma remove_dups_length (l : list Z) :
  (length (remove_dups l) <= length l)%nat.
Proof.
  induction l as [| x l IH]; cbn [remove_dups length]; [done |].
  destruct (decide_rel elem_of x l); cbn [length]; lia.
Qed.

(** X19.  A fresh set filled by [AddAll] with non-negative [int] values,
    fewer than [2^(w-1)] of them: [AddAll] returns, [Elems] is then the
    distinct values in ascending order, and [Len] is their number. *)
Theorem AddAll_fresh_set (vals : list Z) :
  Forall (λ v, 0 <= v < 2 ^ (uint_bits - 1)) vals →
  Z.of_nat (length vals) < 2 ^ (uint_bits - 1) →
  ∃ s, AddAll zero_IntSet vals = Some s ∧
       StronglySorted Z.lt (Elems s) ∧
       Elems s ≡ₚ remove_dups vals ∧
       Len s = Z.of_nat (length (remove_dups vals)).
Proof.
  intros Hvals Hlen.
  assert (0 < 2 ^ (uint_bits - 1)) as Hpos
    by (apply Z.pow_pos_nonneg; by destruct pf).
  assert (Forall (λ v, 0 <= v) vals) as Hnonneg
    by (eapply Forall_impl; [exact Hvals | intros v ?; cbv beta in *; lia]).
  assert (Forall is_int vals) as Hint
    by (eapply Forall_impl; [exact Hvals | unfold is_int; intros v ?;
        cbv beta in *; lia]).
  destruct (AddAll_Has_mem zero_IntSet vals Hnonneg) as (s & HAll & Hs).
  assert (fits_int s) as Hfit.
  { apply (AddAll_fits_int zero_IntSet s vals); [done | | done].
    unfold fits_int, len. cbn [zero_IntSet words length].
    apply Z.pow_nonneg. lia. }
  assert (Elems s ≡ₚ remove_dups vals) as Hperm.
  { rewrite (Elems_members s Hfit). apply NoDup_Permutation.
    - apply NoDup_filter, NoDup_seqZ.
    - apply NoDup_remove_dups.
    - intros x. rewrite elem_of_members, elem_of_remove_dups. split.
      + intros [Hx Hin]. rewrite Has_mem, Hs in Hin by done.
        injection Hin as Hin. unfold mem, word_at in Hin.
        cbn [zero_IntSet words] in Hin.
        rewrite lookup_nil in Hin. cbn [default from_option id] in Hin.
        rewrite Z.bits_0, orb_false_r in Hin.
        by apply bool_decide_eq_true_1 in Hin.
      + intros Hin. rewrite Forall_forall in Hnonneg.
        split; [by apply Hnonneg |].
        rewrite Has_mem, Hs by (by apply Hnonneg).
        by rewrite bool_decide_eq_true_2. }
  exists s. split; [done |]. split; [| split; [done |]].
  - rewrite (Elems_members s Hfit). apply members_sorted.
  - pose proof (remove_dups_length vals).
    assert (Len s = to_int (Z.of_nat (length (Elems s)))) as ->.
    { unfold Len, Elems. rewrite (Len_loop_count 0); [done |].
      unfold is_int. lia. }
    rewrite Hperm. apply to_int_small. lia.
Qed.

End Observers.

Section StoreRefinement.
Variable growcap : nat → nat.
Context {pf : platform}.

(** X20.  With slices as Go has them (a header into a backing array,
    [append] writing in place while the capacity lasts and into a fresh
    array after), the methods act on the words of a well-formed set as they
    do on a plain sequence of words, whatever capacities the runtime
    chooses: [Has] gives the same answer, [Add] and [Remove] return in the
    same cases and leave the same words, and [Copy] returns a set with the
    same words. *)
Theorem store_methods_refine
    (h : Store.heap) (s : Store.loc) (v : IntSet) (x : Z) :
  Store.wf_set h s → Store.view h s = Some v →
  Store.Has h s x = Has v x ∧
  match Store.Add growcap h s x with
  | Some h' => Store.view h' s = Add v x
  | None => Add v x = None
  end ∧
  match Store.Remove h s x with
  | Some h' => Store.view h' s = Remove v x
  | None => Remove v x = None
  end ∧
  ∃ t h', Store.Copy h s = Some (t, h') ∧ Store.view h' t = Some (Copy v).
Proof.
  intros (sl & Hs & Hwf) Hv.
  rewrite (view_Some _ _ _ Hs) in Hv. injection Hv as <-.
  split; [by apply Has_sim |]. split; [| split].
  - pose proof (Add_sim growcap h s sl x Hs Hwf) as HA.
    destruct (Store.Add growcap h s x) as [h' |]; [| done].
    destruct HA as (sl' & Hst & _ & HAdd & _).
    rewrite HAdd. apply view_Some. by rewrite Hst, lookup_insert_eq.
  - pose proof (Remove_sim h s sl x Hs Hwf) as HR.
    destruct (Store.Remove h s x) as [h' |]; [| done].
    destruct HR as (Hst & _ & HRem & _).
    rewrite HRem. apply view_Some. by rewrite Hst.
  - destruct (Copy_sim h s sl Hs Hwf)
      as (t & tl & h' & HCopy & _ & Hst & Hct & _).
    exists t, h'. split; [done |].
    rewrite (view_Some h' t tl) by (by rewrite Hst, lookup_insert_eq).
    rewrite Hct. by destruct (Copy _).
Qed.

End StoreRefinement.

(** * The methods on concrete sets *)

Section Concrete.
#[local] Instance P64_platform : platform := P64.

Example N_on_64_bit : N = 64.
Proof. reflexivity. Qed.

Example Add_70 : Add zero_IntSet 70 = Some {| words := [0; 64] |}.
Proof. reflexivity. Qed.

(** A negative element whose word index is below zero makes [Add] panic. *)
Example Add_negative : Add zero_IntSet (-70) = None.
Proof. reflexivity. Qed.

Example set_A_built : AddAll zero_IntSet [1; 9; 144] = Some set_A.
Proof. reflexivity. Qed.

Example set_B_built : AddAll zero_IntSet [9; 42] = Some set_B.
Proof. reflexivity. Qed.

Example set_A_observed :
  String set_A = "{1 9 144}" ∧ Len set_A = 3 ∧ Elems set_A = [1; 9; 144].
Proof. by vm_compute. Qed.

Example set_A_set_B_combined :
  String (UnionWith (Copy set_A) set_B) = "{1 9 42 144}" ∧
  String (DifferenceWith (Copy set_A) set_B) = "{1 144}" ∧
  String (SymmetricDifference (Copy set_A) set_B) = "{1 42 144}".
Proof. by vm_compute. Qed.

(** The intersection keeps 144, which is not in [set_B]: see C1. *)
Example set_A_set_B_intersected :
  String (IntersectWith (Copy set_A) set_B) = "{9 144}".
Proof. by vm_compute. Qed.

Lemma Add_Has_Remove_witness :
  0 <= 70 ∧
  ∃ s1 s2, Add zero_IntSet 70 = Some s1 ∧ Has s1 70 = Some true ∧
           Remove s1 70 = Some s2 ∧ Has s2 70 = Some false.
Proof. split; [lia | apply (Add_Has_Remove zero_IntSet 70); lia]. Defined.

Lemma SymmetricDifference_self_inverse_witness :
  0 <= 42 ∧
  Has (SymmetricDifference (SymmetricDifference set_A set_B) set_B) 42
  = Has set_A 42.
Proof.
  split; [lia | apply (SymmetricDifference_self_inverse set_A set_B 42); lia].
Defined.

(** C3 as it was stated, for every [A] and every [B], fails when [B] is
    [A] itself.  The methods work in place: in [A.SymmetricDifference(A)]
    the loop reads [t.words[i]], which is [s.words[i]], before it writes
    [s.words[i]], and never appends, so the call leaves in [A] the words
    that [SymmetricDifference] computes from the words of [A] as receiver
    and as operand: all zero.  The second call has that emptied set as
    receiver and as operand, and leaves it empty: 9, which was in [A], is
    not in [A] after the two calls. *)
Lemma SymmetricDifference_twice_on_itself :
  let A := set_A in
  let A1 := SymmetricDifference A A in
  let A2 := SymmetricDifference A1 A1 in
  words A1 = [0; 0; 0] ∧ words A2 = [0; 0; 0] ∧
  0 <= 9 ∧ Has A 9 = Some true ∧ Has A2 9 = Some false ∧
  ¬ (∀ x, 0 <= x → Has A2 x = Has A x).
Proof.
  repeat (split; [by vm_compute |]).
  intros H. specialize (H 9 ltac:(lia)). vm_compute in H. discriminate H.
Qed.

Lemma UnionWith_comm_witness :
  0 <= 144 ∧
  Has (UnionWith (Copy set_A) set_B) 144
  = Has (UnionWith (Copy set_B) set_A) 144.
Proof. split; [lia | apply (UnionWith_comm set_A set_B 144); lia]. Defined.

Lemma Clear_is_zero_witness :
  0 <= 9 ∧
  Clear set_A = zero_IntSet ∧ Len (Clear set_A) = 0 ∧
  Elems (Clear set_A) = [] ∧ String (Clear set_A) = "{}" ∧
  Has (Clear set_A) 9 = Some false.
Proof. split; [lia | apply (Clear_is_zero set_A 9); lia]. Defined.

Lemma String_canonical_witness :
  fits_int set_A ∧
  String set_A = String_spec set_A ∧
  StronglySorted Z.lt (members set_A) ∧
  (∀ x, x ∈ members set_A ↔ 0 <= x ∧ Has set_A x = Some true) ∧
  (Forall (λ w, w = 0) (words set_A) → String set_A = "{}").
Proof.
  assert (fits_int set_A) as Hfit by (apply Z.leb_le; reflexivity).
  split; [exact Hfit | apply (String_canonical set_A Hfit)].
Defined.

Lemma Remove_out_of_range_witness :
  0 <= 500 ∧
  (word_of 500 >= len (words set_A) → Remove set_A 500 = Some set_A) ∧
  (∃ s', Remove set_A 500 = Some s' ∧
         length (words s') = length (words set_A)) ∧
  (∀ y s', Remove set_A y = Some s' →
           length (words s') = length (words set_A)).
Proof. split; [lia | apply (Remove_out_of_range set_A 500); lia]. Defined.

Lemma trailing_zero_words_witness :
  words {| words := [514; 0; 65536; 0; 0] |} = words set_A ++ replicate 2 0 ∧
  (∀ x, 0 <= x → Has {| words := [514; 0; 65536; 0; 0] |} x = Has set_A x) ∧
  Len {| words := [514; 0; 65536; 0; 0] |} = Len set_A ∧
  Elems {| words := [514; 0; 65536; 0; 0] |} = Elems set_A ∧
  String {| words := [514; 0; 65536; 0; 0] |} = String set_A.
Proof.
  split; [reflexivity |].
  apply (trailing_zero_words set_A {| words := [514; 0; 65536; 0; 0] |} 2).
  reflexivity.
Defined.

Lemma Add_Remove_frame_witness :
  0 <= 9 ∧ 0 <= 1 ∧ 9 ≠ 1 ∧
  (∃ s', Add set_A 9 = Some s' ∧ Has s' 1 = Has set_A 1) ∧
  (∃ s', Remove set_A 9 = Some s' ∧ Has s' 1 = Has set_A 1).
Proof.
  split; [lia |]. split; [lia |]. split; [lia |].
  apply (Add_Remove_frame set_A 9 1); lia.
Defined.

Lemma Copy_independent_witness :
  Store.wf_set heap_70 1%positive ∧ 0 <= 200 ∧
  ∃ t h',
    Store.Copy heap_70 1%positive = Some (t, h') ∧
    Store.view h' t = Store.view heap_70 1%positive ∧
    Store.disjoint h' 1%positive t ∧
    (∃ h'', Store.Add doubling h' t 200 = Some h'' ∧
            Store.Has h'' t 200 = Some true ∧
            Store.view h'' 1%positive = Store.view heap_70 1%positive).
Proof.
  assert (Store.wf_set heap_70 1%positive) as Hwf.
  { eexists. split; [reflexivity |]. split; [simpl; lia |].
    eexists. split; reflexivity. }
  split; [exact Hwf |]. split; [lia |].
  destruct (Copy_independent doubling heap_70 1%positive 200 Hwf)
    as (t & h' & HCopy & _ & Hvt & _ & Hdis & HAdd & _); [lia |].
  destruct HAdd as (h'' & HA & HH & Hv & _).
  exists t, h'. split; [exact HCopy |]. split; [exact Hvt |].
  split; [exact Hdis |]. exists h''. split; [exact HA |].
  split; [exact HH | exact Hv].
Defined.

End Concrete.

(** * Further behaviour, on concrete sets *)

Section ConcreteFurther.
#[local] Existing Instance P64_platform.

Lemma UnionWith_Has_witness :
  0 <= 42 ∧
  Has (UnionWith set_A set_B) 42
  = (a ← Has set_A 42; b ← Has set_B 42; Some (a || b)).
Proof. split; [lia | apply (UnionWith_Has set_A set_B 42); lia]. Defined.

Lemma IntersectWith_Has_witness :
  0 <= 144 ∧
  Has (IntersectWith set_A set_B) 144 =
  if decide (word_of 144 < len (words set_B))
  then a ← Has set_A 144; b ← Has set_B 144; Some (a && b)
  else Has set_A 144.
Proof. split; [lia | apply (IntersectWith_Has set_A set_B 144); lia]. Defined.

Lemma IntersectWith_Has_short_receiver_witness :
  (length (words set_B) <= length (words set_A))%nat ∧ 0 <= 9 ∧
  Has (IntersectWith set_B set_A) 9
  = (a ← Has set_B 9; b ← Has set_A 9; Some (a && b)).
Proof.
  split; [simpl; lia |]. split; [lia |].
  apply (IntersectWith_Has_short_receiver set_B set_A 9); [simpl; lia | lia].
Defined.

Lemma DifferenceWith_Has_witness :
  0 <= 9 ∧
  Has (DifferenceWith set_A set_B) 9
  = (a ← Has set_A 9; b ← Has set_B 9; Some (a && negb b)).
Proof. split; [lia | apply (DifferenceWith_Has set_A set_B 9); lia]. Defined.

Lemma SymmetricDifference_Has_witness :
  0 <= 42 ∧
  Has (SymmetricDifference set_A set_B) 42
  = (a ← Has set_A 42; b ← Has set_B 42; Some (xorb a b)).
Proof.
  split; [lia | apply (SymmetricDifference_Has set_A set_B 42); lia].
Defined.

Lemma UnionWith_assoc_idem_witness :
  0 <= 9 ∧
  Has (UnionWith (UnionWith set_A set_B) zero_IntSet) 9
  = Has (UnionWith set_A (UnionWith set_B zero_IntSet)) 9 ∧
  Has (UnionWith (UnionWith set_A set_B) set_B) 9
  = Has (UnionWith set_A set_B) 9.
Proof.
  split; [lia | apply (UnionWith_assoc_idem set_A set_B zero_IntSet 9); lia].
Defined.

Lemma operations_with_copy_witness :
  0 <= 144 ∧
  Has (UnionWith set_A (Copy set_A)) 144 = Has set_A 144 ∧
  Has (IntersectWith set_A (Copy set_A)) 144 = Has set_A 144 ∧
  Has (DifferenceWith set_A (Copy set_A)) 144 = Some false ∧
  Has (SymmetricDifference set_A (Copy set_A)) 144 = Some false.
Proof. split; [lia | apply (operations_with_copy set_A 144); lia]. Defined.

Lemma SymmetricDifference_as_differences_witness :
  0 <= 42 ∧
  Has (SymmetricDifference (Copy set_A) set_B) 42
  = Has (UnionWith (DifferenceWith (Copy set_A) set_B)
                   (DifferenceWith (Copy set_B) set_A)) 42.
Proof.
  split; [lia |].
  apply (SymmetricDifference_as_differences set_A set_B 42); lia.
Defined.

Lemma AddAll_Has_witness :
  Forall (λ v, 0 <= v) [9; 42] ∧
  ∃ s', AddAll set_A [9; 42] = Some s' ∧
        ∀ y, 0 <= y →
             Has s' y
             = (b ← Has set_A y; Some (bool_decide (y ∈ [9; 42]) || b)).
Proof.
  assert (Forall (λ v, 0 <= v) [9; 42]) as H
    by (repeat constructor; lia).
  split; [exact H | apply (AddAll_Has set_A [9; 42] H)].
Defined.

Lemma Add_grows_once_witness :
  0 <= 500 ∧
  ∃ s1, Add set_A 500 = Some s1 ∧
        len (words s1) = Z.max (len (words set_A)) (500 `div` N + 1) ∧
        Add s1 500 = Some s1.
Proof. split; [lia | apply (Add_grows_once set_A 500); lia]. Defined.

Lemma Add_Remove_restores_witness :
  0 <= 42 ∧ Has set_A 42 = Some false ∧
  ∃ s1 s2, Add set_A 42 = Some s1 ∧ Remove s1 42 = Some s2 ∧
           ∀ y, 0 <= y → Has s2 y = Has set_A y.
Proof.
  split; [lia |]. split; [reflexivity |].
  apply (Add_Remove_restores set_A 42); [lia | reflexivity].
Defined.

Lemma negative_word_index_panics_witness :
  -70 <= - N ∧
  Has set_A (-70) = None ∧ Add set_A (-70) = None ∧
  Remove set_A (-70) = None ∧
  (-70 ∈ [1; -70] → AddAll set_A [1; -70] = None).
Proof.
  assert (-70 <= - N) as H by (apply Z.leb_le; reflexivity).
  split; [exact H | apply (negative_word_index_panics set_A (-70) [1; -70] H)].
Defined.

Lemma small_negative_ignored_witness :
  - N < -5 < 0 ∧
  Has set_A (-5) = Some false ∧
  Add set_A (-5)
  = Some {| words := if decide (words set_A = []) then [0]
                     else words set_A |} ∧
  ∃ s', Remove set_A (-5) = Some s' ∧
        ∀ y, 0 <= y → Has s' y = Has set_A y.
Proof.
  assert (- N < -5 < 0) as H by (split; apply Z.ltb_lt; reflexivity).
  split; [exact H | apply (small_negative_ignored set_A (-5) H)].
Defined.

Lemma Len_counts_Elems_witness :
  Z.of_nat (length (Elems set_A)) < 2 ^ (uint_bits - 1) ∧
  Len set_A = Z.of_nat (length (Elems set_A)).
Proof.
  assert (Z.of_nat (length (Elems set_A)) < 2 ^ (uint_bits - 1)) as H
    by (apply Z.ltb_lt; vm_compute; reflexivity).
  split; [exact H | apply (proj2 (Len_counts_Elems set_A) H)].
Defined.

Lemma Elems_ascending_members_witness :
  fits_int set_A ∧
  StronglySorted Z.lt (Elems set_A) ∧
  NoDup (Elems set_A) ∧
  ∀ x, x ∈ Elems set_A ↔ 0 <= x ∧ Has set_A x = Some true.
Proof.
  assert (fits_int set_A) as H by (apply Z.leb_le; reflexivity).
  split; [exact H | apply (Elems_ascending_members set_A H)].
Defined.

Lemma is_int_small (x : Z) : (-1000 <=? x) = true → (x <? 1000) = true → is_int x.
Proof.
  intros H1%Z.leb_le H2%Z.ltb_lt. unfold is_int.
  change (2 ^ (uint_bits - 1)) with 9223372036854775808. lia.
Defined.

Lemma methods_keep_fits_int_witness : reachable set_A ∧ fits_int set_A.
Proof.
  assert (reachable set_A) as H.
  { apply (reachable_Add {| words := [514] |} 144);
      [| by apply is_int_small | reflexivity].
    apply (reachable_Add {| words := [2] |} 9);
      [| by apply is_int_small | reflexivity].
    apply (reachable_Add zero_IntSet 1);
      [| by apply is_int_small | reflexivity].
    apply reachable_zero. }
  split; [exact H | apply (methods_keep_fits_int set_A H)].
Defined.

Lemma AddAll_fresh_set_witness :
  Forall (λ v, 0 <= v < 2 ^ (uint_bits - 1)) [144; 9; 1; 9] ∧
  Z.of_nat (length [144; 9; 1; 9]) < 2 ^ (uint_bits - 1) ∧
  ∃ s, AddAll zero_IntSet [144; 9; 1; 9] = Some s ∧
       StronglySorted Z.lt (Elems s) ∧
       Elems s ≡ₚ remove_dups [144; 9; 1; 9] ∧
       Len s = Z.of_nat (length (remove_dups [144; 9; 1; 9])).
Proof.
  assert (Forall (λ v, 0 <= v < 2 ^ (uint_bits - 1)) [144; 9; 1; 9]) as H1
    by (repeat constructor; (lia || (apply Z.ltb_lt; reflexivity))).
  assert (Z.of_nat (length [144; 9; 1; 9]) < 2 ^ (uint_bits - 1)) as H2
    by (apply Z.ltb_lt; reflexivity).
  split; [exact H1 |]. split; [exact H2 |].
  apply (AddAll_fresh_set [144; 9; 1; 9] H1 H2).
Defined.

Lemma store_methods_refine_witness :
  Store.wf_set heap_70 1%positive ∧
  Store.view heap_70 1%positive = Some {| words := [0; 64] |} ∧
  Store.Has heap_70 1%positive 70 = Has {| words := [0; 64] |} 70 ∧
  match Store.Add doubling heap_70 1%positive 200 with
  | Some h' => Store.view h' 1%positive = Add {| words := [0; 64] |} 200
  | None => Add {| words := [0; 64] |} 200 = None
  end ∧
  match Store.Remove heap_70 1%positive 200 with
  | Some h' => Store.view h' 1%positive = Remove {| words := [0; 64] |} 200
  | None => Remove {| words := [0; 64] |} 200 = None
  end.
Proof.
  assert (Store.wf_set heap_70 1%positive) as Hwf.
  { eexists. split; [reflexivity |]. split; [simpl; lia |].
    eexists. split; reflexivity. }
  assert (Store.view heap_70 1%positive = Some {| words := [0; 64] |}) as Hv
    by reflexivity.
  split; [exact Hwf |]. split; [exact Hv |].
  pose proof (store_methods_refine doubling heap_70 1%positive
                {| words := [0; 64] |}) as H.
  split; [apply (H 70 Hwf Hv) |].
  split; [apply (H 200 Hwf Hv) | apply (H 200 Hwf Hv)].
Defined.

End ConcreteFurther.
